(** * Mandelbrot explorer: the fractal engine and its view transform

    A shallow embedding of the numerical core of the explorer:
    - [fractalUtils.ts]: [hslToRgb] and [getColor];
    - [constants.ts]: the colour-scheme table, the landmarks and the daily
      challenges;
    - [App.tsx]: the escape-time loop and the pixel sweep of [draw], and the
      handlers that change the view (zoom buttons, click, drag, continuous
      zoom, jumps, iteration slider, reset);
    - [App.tsx] and [constants.ts]: the statistics, the achievement
      effect and [formatTime].

    A JavaScript [number] is an IEEE 754 binary64 value; it is modelled by
    Rocq's primitive [float], whose operations are the same binary64
    operations (round to nearest, ties to even).  Iteration counts, pixel
    coordinates and canvas sizes are non-negative integers in the program;
    they are modelled by [nat] and converted with [num_of_nat] where the
    program mixes them with fractional arithmetic. *)

From Stdlib Require Import ZArith Lia Bool List Floats.
From Stdlib Require Uint63.
From Stdlib Require String Ascii DecimalString DecimalNat.
From stdpp Require Import base list.

Set Warnings "-inexact-float".
Local Open Scope float_scope.

(* ================================================================== *)
(** ** The JavaScript number operations the sources rely on *)
(* ================================================================== *)

Module JS.

(** An integer-valued counter used as a [number]; the conversion is
    exact below [2^53], far above any canvas size or iteration cap. *)
Definition num_of_nat (n : nat) : float :=
  of_uint63 (Uint63.of_Z (Z.of_nat n)).

(** Integer part [q] and remainder [r] of [m * 2^e] for [e < 0],
    together with the weight of one half. *)
Definition split_fraction (m : positive) (k : positive) : Z * Z * Z :=
  let q := Z.shiftr (Zpos m) (Zpos k) in
  let r := (Zpos m - Z.shiftl q (Zpos k))%Z in
  let half := Z.shiftl 1 (Zpos k - 1) in
  (q, r, half).

(** Magnitude of [Math.round] on [(-1)^s * m * 2^-k]: nearest integer,
    a tie goes towards plus infinity. *)
Definition round_half_up (s : bool) (m k : positive) : Z :=
  let '(q, r, half) := split_fraction m k in
  if s then (if (half <? r)%Z then q + 1 else q)%Z
  else (if (half <=? r)%Z then q + 1 else q)%Z.

(** [Math.round]: NaN, the infinities, the zeros and the integral
    values are returned unchanged. *)
Definition Math_round (x : float) : float :=
  match Prim2SF x with
  | S754_finite s m (Zneg k) =>
      SF2Prim (binary_normalize prec emax
                 (cond_Zopp s (round_half_up s m k)) 0 s)
  | _ => x
  end.

(** [Math.min] and [Math.max]: NaN is contagious and [-0 < +0]. *)
Definition Math_min (a b : float) : float :=
  if is_nan a || is_nan b then nan
  else if a <? b then a
  else if b <? a then b
  else if get_sign a then a else b.

Definition Math_max (a b : float) : float :=
  if is_nan a || is_nan b then nan
  else if a <? b then b
  else if b <? a then a
  else if get_sign a then b else a.

(** The remainder operator [%] on numbers: exact, with the sign of the
    dividend. *)
Definition fmod (x y : float) : float :=
  match Prim2SF x, Prim2SF y with
  | S754_nan, _ | _, S754_nan => nan
  | S754_infinity _, _ => nan
  | _, S754_zero _ => nan
  | _, S754_infinity _ => x
  | S754_zero _, _ => x
  | S754_finite sx mx ex, S754_finite _ my ey =>
      let e := Z.min ex ey in
      let X := Z.shiftl (Zpos mx) (ex - e) in
      let Y := Z.shiftl (Zpos my) (ey - e) in
      SF2Prim (binary_normalize prec emax (cond_Zopp sx (X mod Y)%Z) e sx)
  end.

(** The conversion applied by a store into a [Uint8ClampedArray] (the
    [data] of an [ImageData]): NaN becomes 0, the value is clamped to
    [0, 255] and rounded to the nearest integer, ties to even. *)
Definition ToUint8Clamp (x : float) : Z :=
  if is_nan x then 0%Z
  else if x <=? 0 then 0%Z
  else if 255 <=? x then 255%Z
  else
    match Prim2SF x with
    | S754_finite _ m (Zneg k) =>
        let '(q, r, half) := split_fraction m k in
        if (r <? half)%Z then q
        else if (half <? r)%Z then (q + 1)%Z
        else if Z.even q then q else (q + 1)%Z
    | S754_finite _ m e => Z.shiftl (Zpos m) e
    | _ => 0%Z
    end.

(** [Object.is] on numbers (React compares effect dependencies with
    it): NaN is the same as NaN, and [+0] differs from [-0]. *)
Definition sameValue (a b : float) : bool := PrimFloat.Leibniz.eqb a b.

End JS.

(* ================================================================== *)
(** ** [types.ts] and [constants.ts] *)
(* ================================================================== *)

Inductive ColorScheme : Set :=
  | classic | fire | ocean | purple | matrix | sunset | psychedelic.

Record ViewState : Set := mkView {
  centerX : float;
  centerY : float;
  zoom : float;
  maxIterations : nat;
  colorScheme : ColorScheme
}.

Definition baseHue (scheme : ColorScheme) : float :=
  match scheme with
  | classic => 200
  | fire => 0
  | ocean => 190
  | purple => 280
  | matrix => 120
  | sunset => 330
  | psychedelic => 60
  end.

Record Location : Set := mkLocation {
  loc_x : float;
  loc_y : float;
  loc_z : float
}.

Definition INTERESTING_LOCATIONS : list Location :=
  [ mkLocation (-0.5) 0 1;
    mkLocation (-0.7463) 0.1102 100;
    mkLocation (-0.74364) 0.13182 2000;
    mkLocation (-0.1011) 0.9563 100;
    mkLocation 0.285 0.01 500;
    mkLocation (-0.7269) 0.1889 5000 ].

Definition DAILY_CHALLENGES : list Location :=
  [ mkLocation (-0.7463) 0.1102 100;
    mkLocation (-1.768) 0.001 1000;
    mkLocation (-0.101) 0.956 150;
    mkLocation (-0.7436) 0.1318 5000;
    mkLocation 0.285 0.01 800 ].

(* ================================================================== *)
(** ** [utils/fractalUtils.ts] *)
(* ================================================================== *)

Definition RGB : Set := (float * float * float)%type.

Definition hue2rgb (p q t : float) : float :=
  let t := if t <? 0 then t + 1 else t in
  let t := if 1 <? t then t - 1 else t in
  if t <? 1 / 6 then p + (q - p) * 6 * t
  else if t <? 1 / 2 then q
  else if t <? 2 / 3 then p + (q - p) * (2 / 3 - t) * 6
  else p.

Definition hslToRgb (h s l : float) : RGB :=
  let '(r, g, b) :=
    if s =? 0 then (l, l, l)
    else
      let q := if l <? 0.5 then l * (1 + s) else l + s - l * s in
      let p := 2 * l - q in
      (hue2rgb p q (h + 1 / 3), hue2rgb p q h, hue2rgb p q (h - 1 / 3)) in
  (JS.Math_round (r * 255), JS.Math_round (g * 255), JS.Math_round (b * 255)).

(** [getColor]; [now] is the value [Date.now()] returns when the call
    reads the clock (only the psychedelic branch reads it). *)
Definition getColor (now : float) (iteration maxIter : float)
    (scheme : ColorScheme) : RGB :=
  if iteration =? maxIter then (0, 0, 0)
  else
    let t := iteration / maxIter in
    let hue := JS.fmod (baseHue scheme + t * 360) 360 in
    match scheme with
    | matrix => (0, JS.Math_round (255 * t * 2), 0)
    | fire =>
        let r := JS.Math_min 255 (t * 510) in
        let g := JS.Math_min 255 (JS.Math_max 0 (t * 510 - 255)) in
        (r, g, 0)
    | psychedelic =>
        let psychHue := JS.fmod (t * 5 + now / 10000) 1 in
        hslToRgb psychHue 0.8 0.5
    | _ => hslToRgb (hue / 360) 0.7 (0.2 + t * 0.6)
    end.

(* ================================================================== *)
(** ** [App.tsx]: the escape-time loop of [draw] *)
(* ================================================================== *)

(** One execution of the loop body: [z <- z^2 + c]. *)
Definition escape_step (x0 y0 : float) (z : float * float) : float * float :=
  let '(x, y) := z in
  let xtemp := x * x - y * y + x0 in
  let y := 2 * x * y + y0 in
  (xtemp, y).

(** The first conjunct of the loop test. *)
Definition in_disc (z : float * float) : bool :=
  let '(x, y) := z in x * x + y * y <=? 4.

(** The loop [while (x*x + y*y <= 4 && iteration < maxIterations)],
    written literally; [fuel] bounds the number of turns. *)
Fixpoint while_escape (fuel : nat) (x0 y0 : float) (maxIterations : nat)
    (z : float * float) (iteration : nat) : option nat :=
  if in_disc z && (iteration <? maxIterations)%nat then
    match fuel with
    | O => None
    | S fuel' =>
        while_escape fuel' x0 y0 maxIterations (escape_step x0 y0 z)
          (S iteration)
    end
  else Some iteration.

(** The same loop by recursion on [remaining = maxIterations - iteration],
    the quantity the second conjunct of the test keeps positive. *)
Fixpoint escape_loop (x0 y0 : float) (remaining : nat)
    (z : float * float) (iteration : nat) : nat :=
  match remaining with
  | O => iteration
  | S r =>
      if in_disc z then escape_loop x0 y0 r (escape_step x0 y0 z) (S iteration)
      else iteration
  end.

(** The escape-time evaluator: [x = 0], [y = 0], [iteration = 0], then
    the loop. *)
Definition iterate (x0 y0 : float) (maxIterations : nat) : nat :=
  escape_loop x0 y0 maxIterations (0, 0) 0.

(* ================================================================== *)
(** ** [App.tsx]: the pixel-to-plane transform and the sweep of [draw] *)
(* ================================================================== *)

(** The canvas element: its pixel size, and the offset of its bounding
    rectangle in client coordinates. *)
Record Canvas : Set := mkCanvas {
  width : nat;
  height : nat;
  rect_left : float;
  rect_top : float
}.

Definition canvasW (canvas : Canvas) : float := JS.num_of_nat (width canvas).
Definition canvasH (canvas : Canvas) : float := JS.num_of_nat (height canvas).

(** [centerX + ((px - width / 2) * scale * aspectRatio) / width], the
    expression shared by [draw], the continuous zoom and the click. *)
Definition planeX (view : ViewState) (canvas : Canvas) (px : float) : float :=
  let aspectRatio := canvasW canvas / canvasH canvas in
  let scale := 3.5 / zoom view in
  centerX view
  + ((px - canvasW canvas / 2) * scale * aspectRatio) / canvasW canvas.

(** [centerY + ((py - height / 2) * scale) / height]. *)
Definition planeY (view : ViewState) (canvas : Canvas) (py : float) : float :=
  let scale := 3.5 / zoom view in
  centerY view + ((py - canvasH canvas / 2) * scale) / canvasH canvas.

(** The [data] of an [ImageData]: a [Uint8ClampedArray], here the list of
    its elements.  A store converts with [ToUint8Clamp]; a store outside
    the array is ignored. *)
Abbreviation ImageData := (list Z).

(** [ctx.createImageData(w, h)]: a buffer of [w * h * 4] zeros; when a
    dimension is 0 the call throws an [IndexSizeError] ([None]). *)
Definition createImageData (w h : nat) : option ImageData :=
  if (w =? 0)%nat || (h =? 0)%nat then None
  else Some (replicate (w * h * 4) 0%Z).

Definition store (data : ImageData) (i : nat) (v : float) : ImageData :=
  <[ i := JS.ToUint8Clamp v ]> data.

Definition pixelIndex (canvas : Canvas) (px py : nat) : nat :=
  (py * width canvas + px) * 4.

(** The colour [draw] computes for pixel [(px, py)]; [now] is the clock
    reading of its [getColor] call. *)
Definition pixelColor (now : float) (view : ViewState) (canvas : Canvas)
    (px py : nat) : RGB :=
  let x0 := planeX view canvas (JS.num_of_nat px) in
  let y0 := planeY view canvas (JS.num_of_nat py) in
  let iteration := iterate x0 y0 (maxIterations view) in
  getColor now (JS.num_of_nat iteration) (JS.num_of_nat (maxIterations view))
    (colorScheme view).

(** The body of the inner loop: the four stores of one pixel. *)
Definition drawPixel (clock : nat -> nat -> float) (view : ViewState)
    (canvas : Canvas) (px : nat) (data : ImageData) (py : nat) : ImageData :=
  let i := pixelIndex canvas px py in
  let '(r, g, b) := pixelColor (clock px py) view canvas px py in
  store (store (store (store data i r) (i + 1) g) (i + 2) b) (i + 3) 255.

(** [draw]: the buffer is created, then
    [for (px ...) for (py ...)], the sweep, column by column.
    [clock px py] is the clock reading while pixel [(px, py)] is
    coloured.  [None]: the exception of [createImageData] leaves [draw]
    and no frame is produced. *)
Definition draw (clock : nat -> nat -> float) (view : ViewState)
    (canvas : Canvas) : option ImageData :=
  match createImageData (width canvas) (height canvas) with
  | None => None
  | Some data =>
      Some
        (fold_left
           (fun data px =>
              fold_left (drawPixel clock view canvas px)
                (seq 0 (height canvas)) data)
           (seq 0 (width canvas))
           data)
  end.

(* ================================================================== *)
(** ** [App.tsx]: the handlers that change the view *)
(* ================================================================== *)

Definition defaultView : ViewState := mkView (-0.5) 0 1 120 classic.

(** The zoom-out and zoom-in buttons. *)
Definition zoomOut (prev : ViewState) : ViewState :=
  mkView (centerX prev) (centerY prev) (zoom prev / 2)
    (maxIterations prev) (colorScheme prev).

Definition zoomIn (prev : ViewState) : ViewState :=
  mkView (centerX prev) (centerY prev) (zoom prev * 2)
    (maxIterations prev) (colorScheme prev).

(** A landmark or the daily challenge. *)
Definition jumpTo (loc : Location) (prev : ViewState) : ViewState :=
  mkView (loc_x loc) (loc_y loc) (loc_z loc)
    (maxIterations prev) (colorScheme prev).

(** The range control [min="50" max="1000" step="50"]: its value at the
    [position]-th stop. *)
Definition range_value (position : nat) : nat := 50 + 50 * Nat.min position 19.

Definition setIterations (position : nat) (prev : ViewState) : ViewState :=
  mkView (centerX prev) (centerY prev) (zoom prev)
    (range_value position) (colorScheme prev).

Definition setScheme (scheme : ColorScheme) (prev : ViewState) : ViewState :=
  mkView (centerX prev) (centerY prev) (zoom prev) (maxIterations prev) scheme.

(** The update of [handleCanvasClick] without a modifier key: [view] is
    the state the handler closes over, [prev] the state the updater
    receives; [(x, y)] is the pointer in canvas coordinates. *)
Definition clickZoom (view prev : ViewState) (canvas : Canvas)
    (x y : float) : ViewState :=
  let newX := planeX view canvas x in
  let newY := planeY view canvas y in
  mkView newX newY (zoom prev * 2) (maxIterations prev) (colorScheme prev).

(** The update of [handleMouseMove] while dragging, for a pointer
    displacement [(dx, dy)]. *)
Definition panBy (view prev : ViewState) (canvas : Canvas)
    (dx dy : float) : ViewState :=
  let aspectRatio := canvasW canvas / canvasH canvas in
  let scale := 3.5 / zoom view in
  let fractalDx := (dx * scale * aspectRatio) / canvasW canvas in
  let fractalDy := (dy * scale) / canvasH canvas in
  mkView (centerX prev - fractalDx) (centerY prev - fractalDy) (zoom prev)
    (maxIterations prev) (colorScheme prev).

(** One firing of the continuous-zoom interval: [view] is the state the
    callback closes over, [prev] the current state. *)
Definition diveTick (view prev : ViewState) (canvas : Canvas)
    (zoomTarget : float * float) : ViewState :=
  let targetX := planeX view canvas (fst zoomTarget) in
  let targetY := planeY view canvas (snd zoomTarget) in
  mkView (centerX prev + (targetX - centerX prev) * 0.2)
         (centerY prev + (targetY - centerY prev) * 0.2)
         (zoom prev * 1.05)
         (maxIterations prev) (colorScheme prev).

(** The state of the component that the navigation reads and writes.
    [dive_view] is the [view] captured by the interval callback of the
    continuous-zoom effect when the effect last ran. *)
Record App : Set := mkApp {
  view : ViewState;
  isContinuousZoom : bool;
  zoomTarget : float * float;
  dive_view : ViewState;
  isDragging : bool;
  lastMousePos : float * float;
  dragDistance : float
}.

Definition initialApp : App :=
  mkApp defaultView false (0, 0) defaultView false (0, 0) 0.

Inductive Event : Set :=
  | MouseDown (button : nat) (clientX clientY : float)
  | MouseMove (clientX clientY : float)
  | MouseUp (modifier : bool) (clientX clientY : float)
  | Tick
  | ZoomOutButton
  | ZoomInButton
  | DiveButton
  | ResetButton
  | Landmark (idx : nat)
  | ScanCoordinates (today : nat)
  | Slider (position : nat)
  | Palette (scheme : ColorScheme).

Definition with_view (app : App) (v : ViewState) : App :=
  mkApp v (isContinuousZoom app) (zoomTarget app) (dive_view app)
    (isDragging app) (lastMousePos app) (dragDistance app).

Definition toggleDive (app : App) : App :=
  mkApp (view app) (negb (isContinuousZoom app)) (zoomTarget app)
    (dive_view app) (isDragging app) (lastMousePos app) (dragDistance app).

(** [handleCanvasClick]. *)
Definition handleCanvasClick (canvas : Canvas) (app : App)
    (modifier : bool) (clientX clientY : float) : App :=
  if modifier then toggleDive app
  else
    let x := clientX - rect_left canvas in
    let y := clientY - rect_top canvas in
    with_view app (clickZoom (view app) (view app) canvas x y).

(** The state updates an event handler requests. *)
Definition handle (canvas : Canvas) (app : App) (ev : Event) : App :=
  match ev with
  | MouseDown button clientX clientY =>
      if (button =? 0)%nat then
        mkApp (view app) (isContinuousZoom app) (zoomTarget app)
          (dive_view app) true (clientX, clientY) 0
      else app
  | MouseMove clientX clientY =>
      let currentX := clientX - rect_left canvas in
      let currentY := clientY - rect_top canvas in
      let target :=
        if isContinuousZoom app then (currentX, currentY) else zoomTarget app in
      if isDragging app then
        let dx := clientX - fst (lastMousePos app) in
        let dy := clientY - snd (lastMousePos app) in
        mkApp (panBy (view app) (view app) canvas dx dy)
          (isContinuousZoom app) target (dive_view app) true
          (clientX, clientY)
          (dragDistance app + PrimFloat.sqrt (dx * dx + dy * dy))
      else
        mkApp (view app) (isContinuousZoom app) target (dive_view app)
          false (lastMousePos app) (dragDistance app)
  | MouseUp modifier clientX clientY =>
      if isDragging app then
        let app' :=
          if dragDistance app <? 5
          then handleCanvasClick canvas app modifier clientX clientY
          else app in
        mkApp (view app') (isContinuousZoom app') (zoomTarget app')
          (dive_view app') false (lastMousePos app') (dragDistance app')
      else app
  | Tick =>
      if isContinuousZoom app then
        with_view app (diveTick (dive_view app) (view app) canvas (zoomTarget app))
      else app
  | ZoomOutButton => with_view app (zoomOut (view app))
  | ZoomInButton => with_view app (zoomIn (view app))
  | DiveButton => toggleDive app
  | ResetButton => with_view app defaultView
  | Landmark idx =>
      match nth_error INTERESTING_LOCATIONS idx with
      | Some loc => with_view app (jumpTo loc (view app))
      | None => app
      end
  | ScanCoordinates today =>
      match nth_error DAILY_CHALLENGES (today mod length DAILY_CHALLENGES) with
      | Some loc => with_view app (jumpTo loc (view app))
      | None => app
      end
  | Slider position => with_view app (setIterations position (view app))
  | Palette scheme => with_view app (setScheme scheme (view app))
  end.

(** The continuous-zoom effect has the dependencies
    [isContinuousZoom, zoomTarget, view.zoom]: after a render in which one
    of them changed it installs a new interval callback, which closes over
    the [view] of that render.  [setZoomTarget] always stores a fresh
    object, so a pointer move while diving counts as a change. *)
Definition deps_changed (old new : App) (ev : Event) : bool :=
  negb (Bool.eqb (isContinuousZoom old) (isContinuousZoom new))
  || match ev with MouseMove _ _ => isContinuousZoom old | _ => false end
  || negb (JS.sameValue (zoom (view old)) (zoom (view new))).

Definition step (canvas : Canvas) (app : App) (ev : Event) : App :=
  let app' := handle canvas app ev in
  if deps_changed app app' ev then
    mkApp (view app') (isContinuousZoom app') (zoomTarget app') (view app')
      (isDragging app') (lastMousePos app') (dragDistance app')
  else app'.

Definition run (canvas : Canvas) (app : App) (evs : list Event) : App :=
  fold_left (step canvas) evs app.

(** [n] successive multiplications by 1.05, each rounded as the program
    rounds it. *)
Definition dive_zoom (n : nat) (z : float) : float :=
  Nat.iter n (fun z => z * 1.05) z.

(* ================================================================== *)
(** ** [App.tsx] and [constants.ts]: the statistics and the achievements *)
(* ================================================================== *)

Module Stats.
Import Ascii String.

(** [GameStats].  The three counters start at 0 and are only ever
    incremented by 1 or by 25: they are natural numbers here (as numbers
    they are exact below [2^53]). *)
Record GameStats : Set := mkStats {
  zoom : float;
  maxZoom : float;
  patternsFound : nat;
  timeInSeconds : nat;
  points : nat
}.

(** An [Achievement], without the texts shown for it. *)
Record Achievement : Set := mkAchievement {
  id : string;
  condition : GameStats -> bool
}.

Definition ACHIEVEMENTS : list Achievement :=
  [ mkAchievement "first_dive" (fun s => 10 <? zoom s);
    mkAchievement "depth_seeker" (fun s => 1000 <=? maxZoom s);
    mkAchievement "abyssal_explorer" (fun s => 1000000 <=? maxZoom s);
    mkAchievement "pattern_hunter" (fun s => (5 <=? patternsFound s)%nat);
    mkAchievement "stay_awhile" (fun s => (600 <=? timeInSeconds s)%nat);
    mkAchievement "high_score" (fun s => (1000 <=? points s)%nat) ].

Definition initialStats : GameStats := mkStats 1 1 0 0 0.

(** [Array.prototype.includes] on a list of identifiers. *)
Definition includes (l : list string) (x : string) : bool :=
  existsb (String.eqb x) l.

(** One run of the achievement effect.  The test reads the list of the
    render the effect belongs to; each [setUnlockedAchievements] appends
    to the list the updates before it have produced. *)
Definition achievementEngine (stats : GameStats)
    (unlockedAchievements : list string) : list string :=
  fold_left
    (fun prev achievement =>
       if negb (includes unlockedAchievements (id achievement))
          && condition achievement stats
       then prev ++ [id achievement]
       else prev)
    ACHIEVEMENTS unlockedAchievements.

(** The effect depends on [stats] and [unlockedAchievements]: it runs
    again after a render in which it has appended to the list, and rests
    when a run appends nothing.  [None]: still running when the fuel is
    spent. *)
Fixpoint achievementEffect (fuel : nat) (stats : GameStats)
    (unlockedAchievements : list string) : option (list string) :=
  match fuel with
  | O => None
  | S fuel =>
      let next := achievementEngine stats unlockedAchievements in
      if (List.length next =? List.length unlockedAchievements)%nat
      then Some unlockedAchievements
      else achievementEffect fuel stats next
  end.

(** The three places that call [setStats]: the timer (every second),
    the end of [performAIAnalysis], and the effect that follows
    [view.zoom]. *)
Inductive Update : Set :=
  | Second
  | Analysed
  | ZoomSync (viewZoom : float).

Definition setStats (u : Update) (prev : GameStats) : GameStats :=
  match u with
  | Second =>
      mkStats (zoom prev) (maxZoom prev) (patternsFound prev)
        (timeInSeconds prev + 1) (points prev)
  | Analysed =>
      mkStats (zoom prev) (maxZoom prev) (patternsFound prev)
        (timeInSeconds prev) (points prev + 25)
  | ZoomSync viewZoom =>
      mkStats viewZoom (JS.Math_max (maxZoom prev) viewZoom)
        (patternsFound prev) (timeInSeconds prev) (points prev)
  end.

(** The game state, and one update of the statistics followed by the
    achievement effect: [stats] is a new object after every update, so
    the effect runs, and what it leaves when it rests is the list of its
    first run (see [achievementEffect]). *)
Record Game : Set := mkGame {
  stats : GameStats;
  unlockedAchievements : list string
}.

Definition initialGame : Game := mkGame initialStats [].

Definition update (g : Game) (u : Update) : Game :=
  let s := setStats u (stats g) in
  mkGame s (achievementEngine s (unlockedAchievements g)).

Definition play (g : Game) (us : list Update) : Game :=
  fold_left update us g.

(** [Number.prototype.toString] on a counter (its decimal digits, which
    is how a whole number below [10^21] is printed),
    [String.prototype.padStart] with a pad of one character, and
    [formatTime]. *)
Definition toString (n : nat) : string :=
  DecimalString.NilEmpty.string_of_uint (Nat.to_uint n).

Definition padStart (targetLength : nat) (pad : Ascii.ascii) (s : string)
    : string :=
  Nat.iter (targetLength - String.length s) (String pad) s.

Definition formatTime (s : nat) : string :=
  let mins := (s / 60)%nat in
  let secs := (s mod 60)%nat in
  (toString mins ++ ":" ++ padStart 2 "0"%char (toString secs))%string.

(** The decimal digit [d] as a character. *)
Definition digit (d : nat) : Ascii.ascii := Ascii.ascii_of_nat (48 + d).

(** The numbers of seconds, of analyses, and the zoom values synchronised
    in a sequence of updates. *)
Fixpoint seconds (us : list Update) : nat :=
  match us with
  | [] => 0
  | Second :: us => S (seconds us)
  | _ :: us => seconds us
  end.

Fixpoint analyses (us : list Update) : nat :=
  match us with
  | [] => 0
  | Analysed :: us => S (analyses us)
  | _ :: us => analyses us
  end.

Fixpoint zooms (us : list Update) : list float :=
  match us with
  | [] => []
  | ZoomSync z :: us => z :: zooms us
  | _ :: us => zooms us
  end.

End Stats.

(* ================================================================== *)
(** ** Vocabulary of the statements *)
(* ================================================================== *)

(** Classes of binary64 values, read on their specification form. *)
Definition SFzero (x : spec_float) : Prop :=
  match x with S754_zero _ => True | _ => False end.

Definition SFfinite (x : spec_float) : Prop :=
  match x with S754_zero _ | S754_finite _ _ _ => True | _ => False end.

Definition SFnonzero (x : spec_float) : Prop :=
  match x with S754_zero _ => False | _ => True end.

Definition SFnonneg (x : spec_float) : Prop :=
  match x with
  | S754_zero _ | S754_infinity false | S754_finite false _ _ => True
  | _ => False
  end.

(** The value is not NaN and carries the sign [s]. *)
Definition SFsigned (s : bool) (x : spec_float) : Prop :=
  match x with
  | S754_zero s' | S754_infinity s' | S754_finite s' _ _ => s' = s
  | S754_nan => False
  end.

Definition Zero (x : float) : Prop := SFzero (Prim2SF x).
Definition Finite (x : float) : Prop := SFfinite (Prim2SF x).

(** The exponent of the smallest subnormal, [-1074]. *)
Definition emin64 : Z := SpecFloat.emin prec emax.

(** The smallest positive binary64 number, [2^-1074]. *)
Definition min_positive : float := 0x1p-1074.

(** The canvas has positive dimensions, and its half sizes and aspect
    ratio are finite numbers. *)
Definition canvas_regular (canvas : Canvas) : bool :=
  (0 <? canvasW canvas) && (0 <? canvasH canvas)
  && is_finite (canvasW canvas / canvasH canvas)
  && is_finite (canvasW canvas / 2) && is_finite (canvasH canvas / 2).

(** The scale [3.5 / zoom] of a view with this zoom is a finite number. *)
Definition scale_finite (z : float) : bool := is_finite (3.5 / z).

Definition centre_finite (v : ViewState) : bool :=
  is_finite (centerX v) && is_finite (centerY v).

(** Neither coordinate of the centre is NaN. *)
Definition centre_defined (v : ViewState) : bool :=
  negb (is_nan (centerX v)) && negb (is_nan (centerY v)).

(** The scale stays finite during the first [n] ticks of a dive that
    starts at zoom [z]. *)
Definition dive_scales_finite (n : nat) (z : float) : bool :=
  forallb (fun k => scale_finite (dive_zoom k z)) (seq 0 n).

(** A canvas of 800 by 600 pixels at the origin of the client area. *)
Definition canvas800x600 : Canvas := mkCanvas 800 600 0 0.

(** The four bytes [draw] stores for pixel [(px, py)]. *)
Definition pixelBytes (clock : nat -> nat -> float) (v : ViewState)
    (canvas : Canvas) (px py : nat) : list Z :=
  let '(r, g, b) := pixelColor (clock px py) v canvas px py in
  [JS.ToUint8Clamp r; JS.ToUint8Clamp g; JS.ToUint8Clamp b; 255%Z].

(** The slot of pixel [(px, py)] in [data] holds these four bytes. *)
Definition painted (clock : nat -> nat -> float) (v : ViewState)
    (canvas : Canvas) (data : ImageData) (px py : nat) : Prop :=
  forall c b, pixelBytes clock v canvas px py !! c = Some b ->
              data !! (pixelIndex canvas px py + c)%nat = Some b.

(** The inner loop of [draw] over the rows [pys] of column [px], and the
    outer loop over the columns [pxs]. *)
Definition column (clock : nat -> nat -> float) (v : ViewState)
    (canvas : Canvas) (px : nat) (data : ImageData) (pys : list nat)
    : ImageData :=
  fold_left (drawPixel clock v canvas px) pys data.

Definition columns (clock : nat -> nat -> float) (v : ViewState)
    (canvas : Canvas) (data : ImageData) (pxs : list nat) : ImageData :=
  fold_left (fun data px => column clock v canvas px data (seq 0 (height canvas)))
    pxs data.

(** What holds of the state [a] after [k] ticks of a dive towards the
    centre of the canvas that started at centre [(cx0, cy0)] and zoom
    [z0]. *)
Definition dive_inv (canvas : Canvas) (cx0 cy0 z0 : float) (k : nat)
    (a : App) : Prop :=
  isContinuousZoom a = true
  /\ zoomTarget a = (canvasW canvas / 2, canvasH canvas / 2)
  /\ zoom (view a) = dive_zoom k z0
  /\ (centerX (view a) =? cx0) = true
  /\ (centerY (view a) =? cy0) = true
  /\ (centerX (dive_view a) =? cx0) = true
  /\ (centerY (dive_view a) =? cy0) = true
  /\ exists j, (j <= k)%nat /\ zoom (dive_view a) = dive_zoom j z0.

(** The state of the loop after [k] turns, when no test stops it. *)
Definition orbit (x0 y0 : float) (k : nat) : float * float :=
  Nat.iter k (escape_step x0 y0) (0, 0).

(** The distance [handleMouseMove] has accumulated in [dragDistanceRef]
    after the pointer positions [pts], starting from the position [last]
    with the distance [d]. *)
Fixpoint dragPath (last : float * float) (d : float)
    (pts : list (float * float)) : float :=
  match pts with
  | [] => d
  | p :: pts =>
      let dx := fst p - fst last in
      let dy := snd p - snd last in
      dragPath p (d + PrimFloat.sqrt (dx * dx + dy * dy)) pts
  end.

(** The pointer events of a drag through the positions [pts]. *)
Definition moves (pts : list (float * float)) : list Event :=
  map (fun p => MouseMove (fst p) (snd p)) pts.

(** The controls that write the rendering settings. *)
Definition writes_settings (ev : Event) : bool :=
  match ev with
  | Slider _ | Palette _ | ResetButton => true
  | _ => false
  end.

(** [b] is the opposite of [a], up to the sign of a zero. *)
Definition SFmirror (a b : spec_float) : Prop :=
  b = SFopp a \/ (SFzero a /\ SFzero b).

(** A channel value that a byte can hold without clamping. *)
Definition byte_range (c : float) : bool := (0 <=? c) && (c <=? 255).

(** The values of [view.zoom] that the effect following it passes to
    [setStats] during the events [evs]: the effect runs after a render
    in which [view.zoom] is not the same as before. *)
Fixpoint zoomChanges (canvas : Canvas) (app : App) (evs : list Event)
    : list float :=
  match evs with
  | [] => []
  | ev :: evs =>
      let app' := step canvas app ev in
      (if JS.sameValue (zoom (view app)) (zoom (view app')) then []
       else [zoom (view app')])
      ++ zoomChanges canvas app' evs
  end.

(* ================================================================== *)
(** * Properties *)
(* ================================================================== *)

(** ** The number operations on sample inputs *)

Example Math_round_ties :
  (JS.Math_round 2.5, JS.Math_round (-2.5), JS.Math_round 0.49999999999999994,
   JS.Math_round 97.75, JS.Math_round 4503599627370495.5)
  = (3, -2, 0, 98, 4503599627370496).
Proof. reflexivity. Qed.

Example fmod_samples :
  (JS.fmod 380 360, JS.fmod (-5.5) 2, JS.fmod 5.5 (-2), JS.fmod 170000000.5 1)
  = (20, -1.5, 1.5, 0.5).
Proof. reflexivity. Qed.

Example ToUint8Clamp_samples :
  (JS.ToUint8Clamp 0.5, JS.ToUint8Clamp 1.5, JS.ToUint8Clamp 2.5,
   JS.ToUint8Clamp 4.25, JS.ToUint8Clamp 425, JS.ToUint8Clamp (-3),
   JS.ToUint8Clamp nan)
  = (0, 2, 2, 4, 255, 0, 0)%Z.
Proof. reflexivity. Qed.

Example Math_min_max_samples :
  (JS.Math_min 255 4.25, JS.Math_min 255 300, JS.Math_max 0 (-3),
   JS.Math_max 0 170)
  = (4.25, 255, 0, 170).
Proof. reflexivity. Qed.

(** Half-way up the classic ramp: hue 20 degrees, lightness 0.5. *)
Example getColor_classic_half (now : float) :
  getColor now 60 120 classic = (217, 98, 38).
Proof. reflexivity. Qed.

(** Canvases of usual sizes are regular, and so is the smallest one. *)
Example canvas_regular_samples :
  canvas_regular canvas800x600 = true
  /\ canvas_regular (mkCanvas 1920 1080 0 0) = true
  /\ canvas_regular (mkCanvas 1 1 0 0) = true.
Proof. repeat split. Qed.

(** A point of the plane that escapes late, by both forms of the loop. *)
Example iterate_sample :
  iterate (-0.75) 0.1 1000 = 33%nat
  /\ while_escape 1000 (-0.75) 0.1 1000 (0, 0) 0 = Some 33%nat.
Proof. split; vm_compute; reflexivity. Qed.

(** ** The escape-time loop *)

Section EscapeLoop.

Variables x0 y0 : float.

Lemma escape_loop_lower (r : nat) :
  forall z i, (i <= escape_loop x0 y0 r z i)%nat.
Proof.
  induction r as [|r IH]; intros z i; simpl; [lia|].
  destruct (in_disc z); [|lia].
  specialize (IH (escape_step x0 y0 z) (S i)). lia.
Qed.

Lemma escape_loop_upper (r : nat) :
  forall z i, (escape_loop x0 y0 r z i <= i + r)%nat.
Proof.
  induction r as [|r IH]; intros z i; simpl; [lia|].
  destruct (in_disc z); [|lia].
  specialize (IH (escape_step x0 y0 z) (S i)). lia.
Qed.

(** One more permitted turn never lowers the count. *)
Lemma escape_loop_succ (r : nat) :
  forall z i, (escape_loop x0 y0 r z i <= escape_loop x0 y0 (S r) z i)%nat.
Proof.
  induction r as [|r IH]; intros z i.
  - simpl. destruct (in_disc z); lia.
  - change (escape_loop x0 y0 (S (S r)) z i)
      with (if in_disc z
            then escape_loop x0 y0 (S r) (escape_step x0 y0 z) (S i)
            else i).
    change (escape_loop x0 y0 (S r) z i)
      with (if in_disc z
            then escape_loop x0 y0 r (escape_step x0 y0 z) (S i)
            else i).
    destruct (in_disc z); [apply IH | lia].
Qed.

Lemma escape_loop_mono (r r' : nat) :
  (r <= r')%nat ->
  forall z i, (escape_loop x0 y0 r z i <= escape_loop x0 y0 r' z i)%nat.
Proof.
  induction 1 as [|r' _ IH]; intros z i; [lia|].
  specialize (IH z i). pose proof (escape_loop_succ r' z i). lia.
Qed.

(** While the orbit stays inside the disc the loop runs to the cap. *)
Lemma escape_loop_inside (r : nat) :
  forall z i,
    (forall k, (k < r)%nat -> in_disc (Nat.iter k (escape_step x0 y0) z) = true) ->
    escape_loop x0 y0 r z i = (i + r)%nat.
Proof.
  induction r as [|r IH]; intros z i H; simpl; [lia|].
  assert (H0 : in_disc z = true) by (apply (H 0%nat); lia).
  rewrite H0, IH; [lia|].
  intros k Hk. rewrite <- Nat.iter_succ_r. apply H. lia.
Qed.

(** The literal [while] loop returns, and returns what [escape_loop]
    computes, as soon as the fuel covers the remaining turns. *)
Lemma while_escape_escape_loop (maxIter : nat) (fuel : nat) :
  forall z i,
    (maxIter - i <= fuel)%nat ->
    while_escape fuel x0 y0 maxIter z i
    = Some (escape_loop x0 y0 (maxIter - i) z i).
Proof.
  induction fuel as [|fuel IH]; intros z i Hf.
  - assert (Hi : (maxIter - i = 0)%nat) by lia. rewrite Hi. simpl.
    assert (Hlt : (i <? maxIter)%nat = false) by (apply Nat.ltb_ge; lia).
    rewrite Hlt, andb_false_r. reflexivity.
  - simpl. destruct (Nat.ltb_spec i maxIter) as [Hlt|Hge].
    + replace (maxIter - i)%nat with (S (maxIter - S i)) by lia. simpl.
      destruct (in_disc z); simpl; [|reflexivity].
      apply IH. lia.
    + replace (maxIter - i)%nat with 0%nat by lia.
      rewrite andb_false_r. reflexivity.
Qed.

End EscapeLoop.

Lemma iterate_while (x0 y0 : float) (maxIter : nat) :
  while_escape maxIter x0 y0 maxIter (0, 0) 0 = Some (iterate x0 y0 maxIter).
Proof.
  unfold iterate.
  rewrite (while_escape_escape_loop x0 y0 maxIter maxIter (0, 0) 0%nat) by lia.
  now rewrite Nat.sub_0_r.
Qed.

(** A sequence that returns to an earlier state only visits the states
    before the return. *)
Section EventuallyPeriodic.

Context {A : Type} (f : A -> A) (P : A -> bool) (z : A).
Variables a p : nat.
Hypothesis Hp : (0 < p)%nat.
Hypothesis Hcycle : Nat.iter (a + p) f z = Nat.iter a f z.
Hypothesis Hprefix :
  forallb (fun k => P (Nat.iter k f z)) (seq 0 (a + p)) = true.

Lemma periodic_forall (k : nat) : P (Nat.iter k f z) = true.
Proof.
  induction k as [k IH] using (well_founded_induction lt_wf).
  destruct (Nat.lt_ge_cases k (a + p)) as [Hlt|Hge].
  - rewrite forallb_forall in Hprefix. apply Hprefix.
    apply in_seq. lia.
  - replace k with ((k - (a + p)) + (a + p))%nat by lia.
    rewrite Nat.iter_add, Hcycle, <- Nat.iter_add.
    apply IH. lia.
Qed.

End EventuallyPeriodic.

(** ** Binary64 comparisons *)

Lemma SFcompare_antisym (x y : spec_float) :
  SFcompare y x = option_map CompOpp (SFcompare x y).
Proof.
  destruct x as [sx|sx| |sx mx ex], y as [sy|sy| |sy my ey];
    try destruct sx; try destruct sy; simpl; try reflexivity.
  - rewrite (Z.compare_antisym ex ey).
    destruct (ex ?= ey)%Z; simpl; try reflexivity.
    rewrite (Pos.compare_cont_antisym mx my Eq). simpl.
    now destruct (Pos.compare_cont Eq mx my).
  - rewrite (Z.compare_antisym ex ey).
    destruct (ex ?= ey)%Z; simpl; try reflexivity.
    rewrite (Pos.compare_cont_antisym mx my Eq). simpl.
    now destruct (Pos.compare_cont Eq mx my).
Qed.

Lemma SFcompare_refl (x : spec_float) :
  x <> S754_nan -> SFcompare x x = Some Eq.
Proof.
  destruct x as [s|s| |s m e]; intros H; simpl; try congruence.
  - now destruct s.
  - rewrite Z.compare_refl.
    assert (Hm : Pos.compare_cont Eq m m = Eq) by apply Pos.compare_refl.
    rewrite Hm. now destruct s.
Qed.

Lemma ltb_leb_false (a b : float) : (a <? b) = true -> (b <=? a) = false.
Proof.
  rewrite FloatAxioms.ltb_spec, FloatAxioms.leb_spec. unfold SFltb, SFleb.
  rewrite (SFcompare_antisym (Prim2SF a) (Prim2SF b)).
  destruct (SFcompare (Prim2SF a) (Prim2SF b)) as [[]|]; simpl; congruence.
Qed.

(** A number that bounds another from above is not NaN, hence equal to
    itself. *)
Lemma leb_eqb_refl (a b : float) : (a <=? b) = true -> (b =? b) = true.
Proof.
  rewrite FloatAxioms.leb_spec, FloatAxioms.eqb_spec. unfold SFleb, SFeqb. intros H.
  rewrite SFcompare_refl; [reflexivity|].
  intros Hn. rewrite Hn in H. now destruct (Prim2SF a).
Qed.

Lemma SFeqb_cases (x y : spec_float) :
  SFeqb x y = true ->
  (SFzero x /\ SFzero y) \/ (x = y /\ x <> S754_nan).
Proof.
  unfold SFeqb.
  destruct x as [sx|sx| |sx mx ex], y as [sy|sy| |sy my ey]; simpl;
    try discriminate; try (destruct sx; discriminate);
    try (destruct sy; discriminate).
  - left; easy.
  - destruct sx, sy; try discriminate; right; easy.
  - intros H. right. split; [|discriminate].
    destruct sx, sy; try discriminate;
      destruct (ex ?= ey)%Z eqn:He; try discriminate;
      apply Z.compare_eq in He; subst ey;
      destruct (Pos.compare_cont Eq mx my) eqn:Hm; try discriminate;
      apply Pos.compare_eq in Hm; subst my; reflexivity.
Qed.

Lemma SFeqb_intro (x y : spec_float) :
  (SFzero x /\ SFzero y) \/ (x = y /\ x <> S754_nan) -> SFeqb x y = true.
Proof.
  unfold SFeqb. intros [[Hx Hy]|[-> Hn]].
  - destruct x, y; simpl in *; easy.
  - now rewrite SFcompare_refl.
Qed.

Lemma eqb_sym (a b : float) : (a =? b) = true -> (b =? a) = true.
Proof.
  rewrite !FloatAxioms.eqb_spec. intros H. apply SFeqb_intro.
  destruct (SFeqb_cases _ _ H) as [[Hx Hy]|[E Hn]]; [left; easy|].
  right. rewrite <- E. easy.
Qed.

Lemma eqb_trans (a b c : float) :
  (a =? b) = true -> (b =? c) = true -> (a =? c) = true.
Proof.
  rewrite !FloatAxioms.eqb_spec. intros H1 H2. apply SFeqb_intro.
  destruct (SFeqb_cases _ _ H1) as [[Ha Hb]|[E1 Hn1]];
    destruct (SFeqb_cases _ _ H2) as [[Hb' Hc]|[E2 Hn2]].
  - left; easy.
  - left. rewrite <- E2. easy.
  - left. rewrite E1. easy.
  - right. split; congruence.
Qed.

(** ** Finite values and zeros *)

Lemma is_finite_Finite (x : float) : is_finite x = true -> Finite x.
Proof.
  unfold is_finite, is_nan, is_infinity, Finite.
  rewrite !FloatAxioms.eqb_spec, FloatAxioms.abs_spec.
  change (Prim2SF infinity) with (S754_infinity false).
  destruct (Prim2SF x) as [s|s| |s m e]; simpl; try easy.
  now destruct s.
Qed.

Lemma eqb_refl_Finite (a : float) : Finite a -> (a =? a) = true.
Proof.
  unfold Finite. rewrite FloatAxioms.eqb_spec. intros H. apply SFeqb_intro. right.
  split; [reflexivity|]. intros E. now rewrite E in H.
Qed.

Lemma eqb_Finite (a b : float) : Finite a -> (a =? b) = true -> Finite b.
Proof.
  unfold Finite. rewrite FloatAxioms.eqb_spec. intros Ha H.
  destruct (SFeqb_cases _ _ H) as [[_ Hb]|[E _]].
  - destruct (Prim2SF b); easy.
  - now rewrite <- E.
Qed.

Lemma sub_eq_Zero (a b : float) :
  Finite a -> (a =? b) = true -> Zero (a - b).
Proof.
  unfold Finite, Zero. rewrite FloatAxioms.eqb_spec, FloatAxioms.sub_spec. intros Ha H.
  destruct (SFeqb_cases _ _ H) as [[Hx Hy]|[E _]].
  - destruct (Prim2SF a) as [sa| | |], (Prim2SF b) as [sb| | |]; try easy.
    now destruct sa, sb.
  - rewrite <- E. destruct (Prim2SF a) as [s|s| |s m e]; try easy.
    + now destruct s.
    + unfold SF64sub, SFsub. rewrite Z.sub_diag. exact I.
Qed.

Lemma mul_Zero_l (a b : float) : Zero a -> Finite b -> Zero (a * b).
Proof.
  unfold Zero, Finite. rewrite FloatAxioms.mul_spec.
  destruct (Prim2SF a), (Prim2SF b); easy.
Qed.

Lemma div_Zero_l (a b : float) : Zero a -> (0 <? b) = true -> Zero (a / b).
Proof.
  unfold Zero. rewrite FloatAxioms.div_spec, FloatAxioms.ltb_spec.
  change (Prim2SF 0) with (S754_zero false).
  destruct (Prim2SF a), (Prim2SF b); easy.
Qed.

(** Adding a zero to a number that is not NaN gives the same number. *)
Lemma add_Zero_r (c z : float) :
  (c =? c) = true -> Zero z -> (c + z =? c) = true.
Proof.
  unfold Zero. rewrite !FloatAxioms.eqb_spec, FloatAxioms.add_spec.
  intros Hc Hz. apply SFeqb_intro.
  destruct (Prim2SF c) as [sc|sc| |sc mc ec], (Prim2SF z) as [sz|sz| |sz mz ez];
    try easy.
  - left. now destruct sc, sz.
  - right. easy.
  - right. easy.
Qed.

(** The first turn of the loop replaces [z = 0] by [c], up to the sign
    of a zero, which squaring forgets. *)
Lemma add_zero_l_square (x : float) : (0 + x) * (0 + x) = x * x.
Proof.
  apply Prim2SF_inj. rewrite !FloatAxioms.mul_spec, FloatAxioms.add_spec.
  change (Prim2SF 0) with (S754_zero false).
  destruct (Prim2SF x) as [s|s| |s m e]; try reflexivity.
  now destruct s.
Qed.

Lemma leb_zero_nonneg (x : float) :
  (0 <=? x) = true <-> SFnonneg (Prim2SF x).
Proof.
  rewrite FloatAxioms.leb_spec. change (Prim2SF 0) with (S754_zero false).
  destruct (Prim2SF x) as [s|[]| |[] m e]; unfold SFleb; simpl;
    intuition congruence.
Qed.

Lemma ltb_zero_pos (x : float) :
  (0 <? x) = true <-> SFnonneg (Prim2SF x) /\ SFnonzero (Prim2SF x).
Proof.
  rewrite FloatAxioms.ltb_spec. change (Prim2SF 0) with (S754_zero false).
  destruct (Prim2SF x) as [s|[]| |[] m e]; unfold SFltb; simpl;
    intuition congruence.
Qed.

Lemma ltb_zero_leb (x : float) : (0 <? x) = true -> (0 <=? x) = true.
Proof. rewrite ltb_zero_pos, leb_zero_nonneg. tauto. Qed.

(** ** Rounding keeps the sign, and keeps a value away from zero *)

Lemma iter_pos_invariant {A} (f : A -> A) (Inv : A -> Prop) :
  (forall x, Inv x -> Inv (f x)) ->
  forall p x, Inv x -> Inv (SpecFloat.iter_pos f p x).
Proof.
  intros Hf. induction p as [p IH|p IH|]; intros x Hx; simpl; auto.
Qed.

Lemma shr_1_shiftr (r : shr_record) :
  (0 <= shr_m r)%Z -> shr_m (shr_1 r) = Z.shiftr (shr_m r) 1.
Proof.
  destruct r as [m b s]. simpl. intros Hm.
  destruct m as [|[p|p|]|p]; try reflexivity; lia.
Qed.

Lemma shr_1_nonneg (r : shr_record) :
  (0 <= shr_m r)%Z -> (0 <= shr_m (shr_1 r))%Z.
Proof.
  intros H. rewrite shr_1_shiftr by exact H. now apply Z.shiftr_nonneg.
Qed.

Lemma iter_shr_1_shiftr (p : positive) :
  forall r, (0 <= shr_m r)%Z ->
    shr_m (SpecFloat.iter_pos shr_1 p r) = Z.shiftr (shr_m r) (Zpos p).
Proof.
  assert (Hnn : forall q r, (0 <= shr_m r)%Z ->
                            (0 <= shr_m (SpecFloat.iter_pos shr_1 q r))%Z).
  { intros q r. apply (iter_pos_invariant shr_1 (fun r => (0 <= shr_m r)%Z)).
    exact shr_1_nonneg. }
  induction p as [p IH|p IH|]; intros r Hr; simpl SpecFloat.iter_pos.
  - rewrite (IH (SpecFloat.iter_pos shr_1 p (shr_1 r))), (IH (shr_1 r)), shr_1_shiftr
      by auto using shr_1_nonneg.
    rewrite !Z.shiftr_shiftr by lia. f_equal. lia.
  - rewrite (IH (SpecFloat.iter_pos shr_1 p r)), (IH r) by auto.
    rewrite !Z.shiftr_shiftr by lia. f_equal. lia.
  - now apply shr_1_shiftr.
Qed.

Lemma Zdigits2_log2 (m : Z) : (0 < m)%Z -> Zdigits2 m = (Z.log2 m + 1)%Z.
Proof.
  destruct m as [|p|p]; try lia. intros _. simpl.
  induction p as [p IH|p IH|]; simpl; try reflexivity.
  - rewrite Pos2Z.inj_succ, IH. destruct p; simpl; lia.
  - rewrite Pos2Z.inj_succ, IH. destruct p; simpl; lia.
Qed.

(** The shift to the canonical exponent: a positive mantissa stays
    positive and keeps its magnitude, unless the value lies below the
    smallest subnormal. *)
Lemma shr_fexp_pos (M E : Z) (l : location) :
  (0 < M)%Z -> (emin64 < Zdigits2 M + E)%Z ->
  (0 < shr_m (fst (shr_fexp prec emax M E l)))%Z
  /\ (Zdigits2 (shr_m (fst (shr_fexp prec emax M E l)))
      + snd (shr_fexp prec emax M E l) = Zdigits2 M + E)%Z.
Proof.
  intros HM Hd. unfold shr_fexp, shr.
  assert (Hrec : shr_m (shr_record_of_loc M l) = M)
    by (destruct l as [|[]]; reflexivity).
  destruct (fexp prec emax (Zdigits2 M + E) - E)%Z as [|n|n] eqn:Hn;
    simpl fst; simpl snd; rewrite ?Hrec; try (split; [lia|reflexivity]).
  rewrite iter_shr_1_shiftr by (rewrite Hrec; lia). rewrite Hrec.
  rewrite (Zdigits2_log2 M HM) in *.
  unfold fexp in Hn. change (SpecFloat.emin prec emax) with emin64 in Hn.
  change prec with 53%Z in Hn.
  assert (Hlog : (Z.pos n <= Z.log2 M)%Z) by lia.
  assert (Hpos : (0 < Z.shiftr M (Z.pos n))%Z).
  { destruct (Z.eq_dec (Z.shiftr M (Z.pos n)) 0%Z) as [E0|NE].
    - apply Z.shiftr_eq_0_iff in E0. lia.
    - pose proof (Z.shiftr_nonneg M (Z.pos n)). lia. }
  split; [exact Hpos|].
  rewrite (Zdigits2_log2 _ Hpos), Z.log2_shiftr by lia. lia.
Qed.

Lemma shr_fexp_nonneg (M E : Z) (l : location) :
  (0 <= M)%Z -> (0 <= shr_m (fst (shr_fexp prec emax M E l)))%Z.
Proof.
  intros HM. unfold shr_fexp, shr.
  assert (Hrec : shr_m (shr_record_of_loc M l) = M)
    by (destruct l as [|[]]; reflexivity).
  destruct (fexp prec emax (Zdigits2 M + E) - E)%Z; simpl fst;
    rewrite ?Hrec; auto.
  apply (iter_pos_invariant shr_1 (fun r => (0 <= shr_m r)%Z) shr_1_nonneg).
  now rewrite Hrec.
Qed.

Lemma round_nearest_even_range (m : Z) (l : location) :
  (m <= round_nearest_even m l <= m + 1)%Z.
Proof.
  destruct l as [|[]]; simpl; try lia. destruct (Z.even m); lia.
Qed.

Lemma binary_round_aux_signed (s : bool) (M E : Z) (l : location) :
  (0 <= M)%Z -> SFsigned s (binary_round_aux prec emax s M E l).
Proof.
  intros HM. unfold binary_round_aux.
  pose proof (shr_fexp_nonneg M E l HM) as H1.
  destruct (shr_fexp prec emax M E l) as [r1 e1]. simpl fst in H1.
  pose proof (round_nearest_even_range (shr_m r1) (loc_of_shr_record r1)) as Hr.
  set (m2 := round_nearest_even (shr_m r1) (loc_of_shr_record r1)) in *.
  pose proof (shr_fexp_nonneg m2 e1 loc_Exact ltac:(lia)) as H2.
  destruct (shr_fexp prec emax m2 e1 loc_Exact) as [r2 e2]. simpl fst in H2.
  destruct (shr_m r2) as [|p|p]; try lia; simpl; auto.
  destruct (e2 <=? emax - prec)%Z; reflexivity.
Qed.

Lemma binary_round_aux_nonzero (s : bool) (M E : Z) (l : location) :
  (0 < M)%Z -> (emin64 < Zdigits2 M + E)%Z ->
  SFnonzero (binary_round_aux prec emax s M E l).
Proof.
  intros HM Hd. unfold binary_round_aux.
  destruct (shr_fexp_pos M E l HM Hd) as [H1 D1].
  destruct (shr_fexp prec emax M E l) as [r1 e1]. simpl fst in *. simpl snd in *.
  pose proof (round_nearest_even_range (shr_m r1) (loc_of_shr_record r1)) as Hr.
  set (m2 := round_nearest_even (shr_m r1) (loc_of_shr_record r1)) in *.
  assert (Hm2 : (0 < m2)%Z) by lia.
  assert (Hd2 : (emin64 < Zdigits2 m2 + e1)%Z).
  { rewrite (Zdigits2_log2 m2 Hm2). rewrite (Zdigits2_log2 _ H1) in D1.
    pose proof (Z.log2_le_mono (shr_m r1) m2 ltac:(lia)). lia. }
  destruct (shr_fexp_pos m2 e1 loc_Exact Hm2 Hd2) as [H2 _].
  destruct (shr_fexp prec emax m2 e1 loc_Exact) as [r2 e2]. simpl fst in *.
  destruct (shr_m r2) as [|p|p]; try lia; simpl; auto.
  destruct (e2 <=? emax - prec)%Z; exact I.
Qed.

Lemma signed_nonneg (x : spec_float) : SFsigned false x -> SFnonneg x.
Proof. destruct x as [s|s| |s m e]; simpl; intros H; subst; auto. Qed.

(** The exponent of a binary64 value is at least that of the smallest
    subnormal. *)
Lemma valid_exponent (x : float) (s : bool) (m : positive) (e : Z) :
  Prim2SF x = S754_finite s m e -> (emin64 <= e)%Z.
Proof.
  intros Hx. pose proof (Prim2SF_valid x) as Hv. rewrite Hx in Hv.
  simpl in Hv. unfold bounded, canonical_mantissa in Hv.
  apply andb_prop in Hv. destruct Hv as [Hc _].
  apply Z.eqb_eq in Hc. unfold fexp in Hc.
  change (SpecFloat.emin prec emax) with emin64 in Hc. lia.
Qed.

(** Scaling by a positive finite constant [c]. *)
Section ScaleByConstant.

Variables (c : float) (mc : positive) (ec : Z).
Hypothesis Hc : Prim2SF c = S754_finite false mc ec.

Lemma mul_const_nonneg (x : float) :
  (0 <=? x) = true -> (0 <=? x * c) = true.
Proof.
  rewrite !leb_zero_nonneg, FloatAxioms.mul_spec, Hc.
  destruct (Prim2SF x) as [s|[]| |[] m e]; simpl; try easy.
  intros _. apply signed_nonneg, binary_round_aux_signed. lia.
Qed.

Lemma div_const_nonneg (x : float) :
  (0 <=? x) = true -> (0 <=? x / c) = true.
Proof.
  rewrite !leb_zero_nonneg, FloatAxioms.div_spec, Hc.
  destruct (Prim2SF x) as [s|[]| |[] m e] eqn:Hx; simpl; try easy.
  intros _. unfold SFdiv_core_binary.
  set (m' := match _ with Z0 => Z.pos m | Zpos _ => _ | Zneg _ => 0%Z end).
  assert (Hm' : (0 <= m')%Z).
  { subst m'. destruct (_ - _ - _)%Z; try lia. apply Z.shiftl_nonneg. lia. }
  pose proof (Z.div_pos m' (Z.pos mc) Hm' ltac:(lia)) as Hq.
  unfold Z.div in Hq. destruct (Z.div_eucl m' (Z.pos mc)) as [q r].
  now apply signed_nonneg, binary_round_aux_signed.
Qed.

(** When [c >= 1] the product of a positive value by [c] cannot fall
    below the smallest subnormal. *)
Hypothesis Hge1 : (0 <= Z.log2 (Z.pos mc) + ec)%Z.

Lemma mul_const_pos (x : float) :
  (0 <? x) = true -> (0 <? x * c) = true.
Proof.
  rewrite !ltb_zero_pos, FloatAxioms.mul_spec, Hc.
  destruct (Prim2SF x) as [s|[]| |[] m e] eqn:Hx; simpl; try easy.
  intros _. pose proof (valid_exponent x _ _ _ Hx) as He.
  split.
  - apply signed_nonneg, binary_round_aux_signed. lia.
  - apply binary_round_aux_nonzero; [lia|].
    rewrite Zdigits2_log2 by lia.
    pose proof (Z.log2_mul_below (Z.pos m) (Z.pos mc) ltac:(lia) ltac:(lia)).
    pose proof (Z.log2_nonneg (Z.pos m)).
    rewrite Pos2Z.inj_mul. lia.
Qed.

End ScaleByConstant.

Lemma mul_2_pos (x : float) : (0 <? x) = true -> (0 <? x * 2) = true.
Proof.
  apply (mul_const_pos 2 4503599627370496 (-51)); [reflexivity|].
  now vm_compute.
Qed.

Lemma mul_105_pos (x : float) : (0 <? x) = true -> (0 <? x * 1.05) = true.
Proof.
  apply (mul_const_pos 1.05 4728779608739021 (-52)); [reflexivity|].
  now vm_compute.
Qed.

Lemma mul_2_nonneg (x : float) : (0 <=? x) = true -> (0 <=? x * 2) = true.
Proof. now apply (mul_const_nonneg 2 4503599627370496 (-51)). Qed.

Lemma mul_105_nonneg (x : float) : (0 <=? x) = true -> (0 <=? x * 1.05) = true.
Proof. now apply (mul_const_nonneg 1.05 4728779608739021 (-52)). Qed.

Lemma div_2_nonneg (x : float) : (0 <=? x) = true -> (0 <=? x / 2) = true.
Proof. now apply (div_const_nonneg 2 4503599627370496 (-51)). Qed.

Lemma valid_digits (x : float) (s : bool) (m : positive) (e : Z) :
  Prim2SF x = S754_finite s m e ->
  (emin64 <= e)%Z /\ (Z.log2 (Z.pos m) + 1 <= 53)%Z.
Proof.
  intros Hx. pose proof (Prim2SF_valid x) as Hv. rewrite Hx in Hv.
  simpl in Hv. unfold bounded, canonical_mantissa in Hv.
  apply andb_prop in Hv. destruct Hv as [Hc _].
  apply Z.eqb_eq in Hc. unfold fexp in Hc.
  change (SpecFloat.emin prec emax) with emin64 in Hc.
  change (Z.pos (digits2_pos m)) with (Zdigits2 (Z.pos m)) in Hc.
  rewrite Zdigits2_log2 in Hc by lia.
  change prec with 53%Z in Hc. lia.
Qed.

(** Halving a positive number gives a positive number, except at the
    smallest one. *)
Lemma div_2_pos (x : float) :
  (0 <? x) = true -> x <> min_positive -> (0 <? x / 2) = true.
Proof.
  rewrite !ltb_zero_pos, FloatAxioms.div_spec.
  change (Prim2SF 2) with (S754_finite false 4503599627370496 (-51)).
  intros Hpos Hmin.
  destruct (Prim2SF x) as [s|[]| |[] m e] eqn:Hx; simpl in Hpos; try easy.
  destruct (valid_digits x _ _ _ Hx) as [He Hd].
  assert (Hne : (emin64 + 1 < Z.log2 (Z.pos m) + 1 + e)%Z).
  { destruct (Z.eq_dec e emin64) as [->|]; [|pose proof (Z.log2_nonneg (Z.pos m)); lia].
    destruct (Pos.eq_dec m 1%positive) as [->|Hm].
    - exfalso. apply Hmin. apply Prim2SF_inj. rewrite Hx. reflexivity.
    - assert (1 <= Z.log2 (Z.pos m))%Z by (apply Z.log2_le_pow2; lia). lia. }
  unfold SF64div, SFdiv, SFdiv_core_binary.
  rewrite (Zdigits2_log2 (Z.pos m)) by lia.
  change (Zdigits2 4503599627370496) with 53%Z.
  unfold fexp. change (SpecFloat.emin prec emax) with emin64.
  change prec with 53%Z.
  pose proof (Z.log2_nonneg (Z.pos m)) as HL.
  set (L := Z.log2 (Z.pos m)) in *.
  set (e' := Z.min (Z.max (L + 1 + e - (53 + -51) - 53) emin64) (e - -51)).
  assert (He' : (e' < e + 51 /\ emin64 <= e' /\ L + 1 + e - e' >= 2)%Z).
  { subst e'. change emin64 with (-1074)%Z in *. clearbody L. clear Hx Hmin Hpos. lia. }
  destruct (e - -51 - e')%Z as [|s|s] eqn:Hs; try lia.
  assert (Hq : Z.div (Z.shiftl (Z.pos m) (Z.pos s)) 4503599627370496
               = Z.shiftr (Z.shiftl (Z.pos m) (Z.pos s)) 52).
  { rewrite Z.shiftr_div_pow2 by lia. reflexivity. }
  unfold Z.div in Hq.
  destruct (Z.div_eucl (Z.shiftl (Z.pos m) (Z.pos s)) 4503599627370496)
    as [q r].
  assert (Hlog : Z.log2 (Z.shiftl (Z.pos m) (Z.pos s)) = (L + Z.pos s)%Z)
    by (apply Z.log2_shiftl; lia).
  assert (Hshl : (0 < Z.shiftl (Z.pos m) (Z.pos s))%Z)
    by (rewrite Z.shiftl_mul_pow2 by lia;
        pose proof (Z.pow_pos_nonneg 2 (Z.pos s)); nia).
  assert (Hqpos : (0 < q)%Z).
  { rewrite Hq.
    destruct (Z.eq_dec (Z.shiftr (Z.shiftl (Z.pos m) (Z.pos s)) 52) 0%Z)
      as [E0|NE].
    - apply Z.shiftr_eq_0_iff in E0. lia.
    - pose proof (Z.shiftr_nonneg (Z.shiftl (Z.pos m) (Z.pos s)) 52). lia. }
  split.
  - apply signed_nonneg, binary_round_aux_signed. lia.
  - apply binary_round_aux_nonzero; [exact Hqpos|].
    rewrite Zdigits2_log2 by exact Hqpos.
    rewrite Hq, Z.log2_shiftr, Hlog by lia. lia.
Qed.

(** ** The sweep of [draw] *)

Section Sweep.

Variables (clock : nat -> nat -> float) (v : ViewState) (canvas : Canvas).

Let w := width canvas.
Let h := height canvas.

Lemma drawPixel_length (px py : nat) (data : ImageData) :
  length (drawPixel clock v canvas px data py) = length data.
Proof.
  unfold drawPixel, store.
  destruct (pixelColor _ _ _ _ _) as [[r g] b].
  now rewrite !length_insert.
Qed.

Lemma drawPixel_other (px py : nat) (data : ImageData) (j : nat) :
  (j < pixelIndex canvas px py \/ pixelIndex canvas px py + 4 <= j)%nat ->
  drawPixel clock v canvas px data py !! j = data !! j.
Proof.
  intros Hj. unfold drawPixel, store.
  destruct (pixelColor _ _ _ _ _) as [[r g] b].
  rewrite !list_lookup_insert_ne by lia. reflexivity.
Qed.

Lemma drawPixel_painted (px py : nat) (data : ImageData) :
  (pixelIndex canvas px py + 3 < length data)%nat ->
  painted clock v canvas (drawPixel clock v canvas px data py) px py.
Proof.
  intros Hlen c b0. unfold pixelBytes, drawPixel, store.
  destruct (pixelColor _ _ _ _ _) as [[r g] b].
  destruct c as [|[|[|[|c]]]]; simpl; intros [= <-].
  - rewrite Nat.add_0_r, !list_lookup_insert_ne by lia.
    apply list_lookup_insert_eq. lia.
  - rewrite !list_lookup_insert_ne by lia.
    apply list_lookup_insert_eq. rewrite length_insert. lia.
  - rewrite !list_lookup_insert_ne by lia.
    apply list_lookup_insert_eq. rewrite !length_insert. lia.
  - change (JS.ToUint8Clamp 255) with 255%Z.
    apply list_lookup_insert_eq. rewrite !length_insert. lia.
Qed.

Lemma pixelBytes_lt (px py c : nat) (b : Z) :
  pixelBytes clock v canvas px py !! c = Some b -> (c < 4)%nat.
Proof.
  intros H. apply lookup_lt_Some in H. unfold pixelBytes in H.
  destruct (pixelColor _ _ _ _ _) as [[r g] b']. exact H.
Qed.

Lemma pixelIndex_bound (px py : nat) :
  (px < w)%nat -> (py < h)%nat ->
  (pixelIndex canvas px py + 3 < w * h * 4)%nat.
Proof. unfold pixelIndex. fold w. nia. Qed.

(** Distinct pixels of the canvas own disjoint slots. *)
Lemma pixelIndex_apart (px py px' py' : nat) :
  (px < w)%nat -> (px' < w)%nat -> (px, py) <> (px', py') ->
  (pixelIndex canvas px' py' + 4 <= pixelIndex canvas px py
   \/ pixelIndex canvas px py + 4 <= pixelIndex canvas px' py')%nat.
Proof.
  unfold pixelIndex. fold w. intros Hx Hx' Hne.
  destruct (Nat.lt_trichotomy py py') as [Hlt|[->|Hgt]].
  - right. nia.
  - assert (px <> px') by congruence. lia.
  - left. nia.
Qed.

(** Drawing a pixel leaves every painted slot painted. *)
Lemma drawPixel_keeps (px py px' py' : nat) (data : ImageData) :
  length data = (w * h * 4)%nat ->
  (px < w)%nat -> (py < h)%nat -> (px' < w)%nat ->
  painted clock v canvas data px' py' ->
  painted clock v canvas (drawPixel clock v canvas px data py) px' py'.
Proof.
  intros Hlen Hx Hy Hx' Hp.
  destruct (decide ((px, py) = (px', py'))) as [[= <- <-]|Hne].
  - apply drawPixel_painted. rewrite Hlen. now apply pixelIndex_bound.
  - intros c b Hc. pose proof (pixelBytes_lt _ _ _ _ Hc) as Hc4.
    rewrite drawPixel_other; [now apply Hp|].
    destruct (pixelIndex_apart px py px' py' Hx Hx' Hne); lia.
Qed.

Lemma column_length (px : nat) (pys : list nat) :
  forall data, length (column clock v canvas px data pys) = length data.
Proof.
  unfold column.
  induction pys as [|py pys IH]; intros data; simpl; [reflexivity|].
  now rewrite IH, drawPixel_length.
Qed.

Lemma column_keeps (px px' py' : nat) (pys : list nat) :
  (px < w)%nat -> (px' < w)%nat -> Forall (fun py => (py < h)%nat) pys ->
  forall data, length data = (w * h * 4)%nat ->
    painted clock v canvas data px' py' ->
    painted clock v canvas (column clock v canvas px data pys) px' py'.
Proof.
  intros Hx Hx'. unfold column.
  induction 1 as [|py pys Hy _ IH]; intros data Hlen Hp;
    simpl; [exact Hp|].
  apply IH; [now rewrite drawPixel_length|].
  now apply drawPixel_keeps.
Qed.

Lemma column_painted (px py : nat) (pys : list nat) :
  (px < w)%nat -> Forall (fun py => (py < h)%nat) pys -> In py pys ->
  forall data, length data = (w * h * 4)%nat ->
    painted clock v canvas (column clock v canvas px data pys) px py.
Proof.
  intros Hx. induction 1 as [|py0 pys Hy Hall IH]; intros Hin data Hlen;
    simpl in *; [easy|].
  destruct Hin as [->|Hin].
  - apply (column_keeps px px py pys); auto;
      [now rewrite drawPixel_length|].
    apply drawPixel_painted. rewrite Hlen. now apply pixelIndex_bound.
  - apply (IH Hin). now rewrite drawPixel_length.
Qed.

Lemma seq_below (n : nat) : Forall (fun k => (k < n)%nat) (seq 0 n).
Proof. apply Forall_forall. intros k Hk. apply elem_of_seq in Hk. lia. Qed.

Lemma columns_length (pxs : list nat) :
  forall data, length (columns clock v canvas data pxs) = length data.
Proof.
  unfold columns.
  induction pxs as [|px pxs IH]; intros data; simpl; [reflexivity|].
  now rewrite IH, column_length.
Qed.

Lemma columns_keeps (px' py' : nat) (pxs : list nat) :
  (px' < w)%nat -> Forall (fun px => (px < w)%nat) pxs ->
  forall data, length data = (w * h * 4)%nat ->
    painted clock v canvas data px' py' ->
    painted clock v canvas (columns clock v canvas data pxs) px' py'.
Proof.
  intros Hx'. unfold columns.
  induction 1 as [|px pxs Hx _ IH]; intros data Hlen Hp;
    simpl; [exact Hp|].
  apply IH; [now rewrite column_length|].
  apply column_keeps; auto using seq_below.
Qed.

Lemma columns_painted (px py : nat) (pxs : list nat) :
  (py < h)%nat -> Forall (fun px => (px < w)%nat) pxs -> In px pxs ->
  forall data, length data = (w * h * 4)%nat ->
    painted clock v canvas (columns clock v canvas data pxs) px py.
Proof.
  intros Hy. induction 1 as [|px0 pxs Hx Hall IH]; intros Hin data Hlen;
    simpl in *; [easy|].
  destruct Hin as [->|Hin].
  - apply (columns_keeps px py pxs); auto; [now rewrite column_length|].
    apply column_painted; auto using seq_below.
    apply in_seq. lia.
  - apply (IH Hin). now rewrite column_length.
Qed.

(** [draw] yields a frame exactly when the canvas has a pixel, and the
    frame is then the sweep of the fresh buffer. *)
Lemma draw_None : w = 0%nat \/ h = 0%nat -> draw clock v canvas = None.
Proof.
  unfold draw, createImageData. fold w h.
  intros [-> | ->]; [reflexivity|]. now rewrite orb_true_r.
Qed.

Lemma draw_columns :
  (0 < w)%nat -> (0 < h)%nat ->
  draw clock v canvas
  = Some (columns clock v canvas (replicate (w * h * 4) 0%Z) (seq 0 w)).
Proof.
  intros Hw Hh. unfold draw, createImageData. fold w h.
  destruct (Nat.eqb_spec w 0%nat) as [E|_]; [lia|].
  destruct (Nat.eqb_spec h 0%nat) as [E|_]; [lia|].
  reflexivity.
Qed.

Lemma draw_Some (data : ImageData) :
  draw clock v canvas = Some data ->
  (0 < w)%nat /\ (0 < h)%nat
  /\ data = columns clock v canvas (replicate (w * h * 4) 0%Z) (seq 0 w).
Proof.
  intros H.
  destruct (Nat.eq_dec w 0%nat) as [Ew|Nw];
    [rewrite draw_None in H by (now left); discriminate H|].
  destruct (Nat.eq_dec h 0%nat) as [Eh|Nh];
    [rewrite draw_None in H by (now right); discriminate H|].
  rewrite draw_columns in H by lia. injection H as <-.
  repeat split; lia.
Qed.

(** The buffer keeps the size [width * height * 4]. *)
Lemma draw_length (data : ImageData) :
  draw clock v canvas = Some data -> length data = (w * h * 4)%nat.
Proof.
  intros H. apply draw_Some in H. destruct H as (_ & _ & ->).
  rewrite columns_length. apply length_replicate.
Qed.

(** After the sweep every pixel of the canvas holds the colour computed
    for it. *)
Lemma draw_painted (px py : nat) :
  (px < w)%nat -> (py < h)%nat ->
  exists data,
    draw clock v canvas = Some data
    /\ painted clock v canvas data px py.
Proof.
  intros Hx Hy. rewrite draw_columns by lia. eexists. split; [reflexivity|].
  apply (columns_painted px py (seq 0 w) Hy (seq_below w)).
  - apply in_seq. lia.
  - apply length_replicate.
Qed.

End Sweep.

(** ** The view transform at the centre of the canvas *)

Section Centre.

Variables (v : ViewState) (canvas : Canvas).
Hypothesis Hscale : Finite (3.5 / zoom v).

Lemma planeX_centre (x : float) :
  (centerX v =? centerX v) = true ->
  Finite (canvasW canvas / canvasH canvas) ->
  (0 <? canvasW canvas) = true ->
  Finite (canvasW canvas / 2) ->
  (x =? canvasW canvas / 2) = true ->
  (planeX v canvas x =? centerX v) = true.
Proof.
  intros Hc Ha Hw Hhalf Hmid. unfold planeX.
  apply add_Zero_r; [exact Hc|].
  apply div_Zero_l; [|exact Hw].
  apply mul_Zero_l; [|exact Ha].
  apply mul_Zero_l; [|exact Hscale].
  apply sub_eq_Zero; [|exact Hmid].
  apply (eqb_Finite (canvasW canvas / 2)); [exact Hhalf|].
  now apply eqb_sym.
Qed.

Lemma planeY_centre (y : float) :
  (centerY v =? centerY v) = true ->
  (0 <? canvasH canvas) = true ->
  Finite (canvasH canvas / 2) ->
  (y =? canvasH canvas / 2) = true ->
  (planeY v canvas y =? centerY v) = true.
Proof.
  intros Hc Hh Hhalf Hmid. unfold planeY.
  apply add_Zero_r; [exact Hc|].
  apply div_Zero_l; [|exact Hh].
  apply mul_Zero_l; [|exact Hscale].
  apply sub_eq_Zero; [|exact Hmid].
  apply (eqb_Finite (canvasH canvas / 2)); [exact Hhalf|].
  now apply eqb_sym.
Qed.

End Centre.

(** ** The handlers *)

Lemma sameValue_refl (z : float) : JS.sameValue z z = true.
Proof. unfold JS.sameValue. now apply FloatAxioms.Leibniz.eqb_spec. Qed.

(** The effect only refreshes the captured view: every other component
    of the state is the one the handler produced. *)
Lemma view_step (canvas : Canvas) (app : App) (ev : Event) :
  view (step canvas app ev) = view (handle canvas app ev).
Proof. unfold step. now destruct (deps_changed _ _ _). Qed.

Lemma isContinuousZoom_step (canvas : Canvas) (app : App) (ev : Event) :
  isContinuousZoom (step canvas app ev)
  = isContinuousZoom (handle canvas app ev).
Proof. unfold step. now destruct (deps_changed _ _ _). Qed.

Lemma zoomTarget_step (canvas : Canvas) (app : App) (ev : Event) :
  zoomTarget (step canvas app ev) = zoomTarget (handle canvas app ev).
Proof. unfold step. now destruct (deps_changed _ _ _). Qed.

Lemma dive_view_step (canvas : Canvas) (app : App) (ev : Event) :
  dive_view (step canvas app ev) = view (handle canvas app ev)
  \/ dive_view (step canvas app ev) = dive_view (handle canvas app ev).
Proof. unfold step. destruct (deps_changed _ _ _); auto. Qed.

Lemma run_cons (canvas : Canvas) (app : App) (ev : Event) (evs : list Event) :
  run canvas app (ev :: evs) = run canvas (step canvas app ev) evs.
Proof. reflexivity. Qed.

(** A press and a release at the same place, without modifier key, is a
    click: the view becomes the one [handleCanvasClick] computes. *)
Lemma click_view (canvas : Canvas) (app : App) (clientX clientY : float) :
  view (run canvas app
          [MouseDown 0 clientX clientY; MouseUp false clientX clientY])
  = clickZoom (view app) (view app) canvas
      (clientX - rect_left canvas) (clientY - rect_top canvas).
Proof.
  rewrite !run_cons. unfold run, fold_left.
  assert (H1 : step canvas app (MouseDown 0 clientX clientY)
               = mkApp (view app) (isContinuousZoom app) (zoomTarget app)
                   (dive_view app) true (clientX, clientY) 0).
  { unfold step, deps_changed. cbn [handle Nat.eqb view isContinuousZoom].
    now rewrite Bool.eqb_reflx, sameValue_refl. }
  rewrite H1, view_step. reflexivity.
Qed.

Lemma canvas_regular_elim (canvas : Canvas) :
  canvas_regular canvas = true ->
  (0 <? canvasW canvas) = true /\ (0 <? canvasH canvas) = true
  /\ Finite (canvasW canvas / canvasH canvas)
  /\ Finite (canvasW canvas / 2) /\ Finite (canvasH canvas / 2).
Proof.
  unfold canvas_regular. rewrite !andb_true_iff.
  intros [[[[Hw Hh] Ha] Hw2] Hh2].
  auto 10 using is_finite_Finite.
Qed.

Lemma centre_defined_elim (v : ViewState) :
  centre_defined v = true ->
  (centerX v =? centerX v) = true /\ (centerY v =? centerY v) = true.
Proof.
  unfold centre_defined, is_nan. rewrite andb_true_iff, !negb_involutive.
  auto.
Qed.

Lemma centre_finite_elim (v : ViewState) :
  centre_finite v = true -> Finite (centerX v) /\ Finite (centerY v).
Proof.
  unfold centre_finite. rewrite andb_true_iff.
  intros [Hx Hy]. auto using is_finite_Finite.
Qed.

(** ** Continuous zoom towards the centre of the canvas *)

Section DiveRun.

Variables (canvas : Canvas) (cx0 cy0 z0 : float) (n : nat).

Hypothesis Hcanvas : canvas_regular canvas = true.
Hypothesis Hcx0 : Finite cx0.
Hypothesis Hcy0 : Finite cy0.
Hypothesis Hscales : dive_scales_finite n z0 = true.

Lemma dive_scale (j : nat) : (j < n)%nat -> Finite (3.5 / dive_zoom j z0).
Proof.
  intros Hj. apply is_finite_Finite.
  unfold dive_scales_finite in Hscales.
  rewrite forallb_forall in Hscales.
  apply (Hscales j). apply in_seq. lia.
Qed.

Lemma eqb_Finite_l (a b : float) : Finite b -> (a =? b) = true -> Finite a.
Proof. intros Hb H. apply (eqb_Finite b a Hb). now apply eqb_sym. Qed.

(** Easing towards a target that equals the current coordinate does
    not move it. *)
Lemma ease_fixed (c t c0 : float) :
  Finite c0 -> (c =? c0) = true -> (t =? c0) = true ->
  (c + (t - c) * 0.2 =? c0) = true.
Proof.
  intros H0 Hc Ht.
  apply (eqb_trans _ c); [|exact Hc].
  apply add_Zero_r; [now apply eqb_refl_Finite, (eqb_Finite_l c c0)|].
  apply mul_Zero_l; [|exact I].
  apply sub_eq_Zero; [now apply (eqb_Finite_l t c0)|].
  apply (eqb_trans _ c0); [exact Ht | now apply eqb_sym].
Qed.

Lemma dive_inv_step (k : nat) (a : App) :
  (k < n)%nat -> dive_inv canvas cx0 cy0 z0 k a ->
  dive_inv canvas cx0 cy0 z0 (S k) (step canvas a Tick).
Proof.
  intros Hk (Hdive & Htgt & Hz & Hx & Hy & Hdx & Hdy & j & Hj & Hdz).
  destruct (canvas_regular_elim canvas Hcanvas) as (Hw & Hh & Ha & Hw2 & Hh2).
  assert (Hs : Finite (3.5 / zoom (dive_view a)))
    by (rewrite Hdz; apply dive_scale; lia).
  assert (Hhandle : handle canvas a Tick
                    = with_view a (diveTick (dive_view a) (view a) canvas
                                    (canvasW canvas / 2, canvasH canvas / 2)))
    by (cbn [handle]; now rewrite Hdive, Htgt).
  assert (Hnx : (centerX (view (handle canvas a Tick)) =? cx0) = true).
  { rewrite Hhandle. cbn [with_view view diveTick centerX fst].
    apply ease_fixed; auto.
    apply (eqb_trans _ (centerX (dive_view a))); [|exact Hdx].
    apply planeX_centre; auto.
    - now apply eqb_refl_Finite, (eqb_Finite_l _ cx0).
    - now apply eqb_refl_Finite. }
  assert (Hny : (centerY (view (handle canvas a Tick)) =? cy0) = true).
  { rewrite Hhandle. cbn [with_view view diveTick centerY snd].
    apply ease_fixed; auto.
    apply (eqb_trans _ (centerY (dive_view a))); [|exact Hdy].
    apply planeY_centre; auto.
    - now apply eqb_refl_Finite, (eqb_Finite_l _ cy0).
    - now apply eqb_refl_Finite. }
  assert (Hnz : zoom (view (handle canvas a Tick)) = dive_zoom (S k) z0).
  { rewrite Hhandle. cbn [with_view view diveTick zoom]. now rewrite Hz. }
  unfold dive_inv.
  rewrite isContinuousZoom_step, zoomTarget_step, view_step.
  repeat split; auto.
  - now rewrite Hhandle.
  - now rewrite Hhandle.
  - destruct (dive_view_step canvas a Tick) as [-> | ->]; auto.
    now rewrite Hhandle.
  - destruct (dive_view_step canvas a Tick) as [-> | ->]; auto.
    now rewrite Hhandle.
  - destruct (dive_view_step canvas a Tick) as [-> | ->].
    + exists (S k). auto.
    + exists j. split; [lia|]. now rewrite Hhandle.
Qed.

Lemma dive_inv_run (m : nat) :
  forall k a, (k + m <= n)%nat -> dive_inv canvas cx0 cy0 z0 k a ->
    dive_inv canvas cx0 cy0 z0 (k + m) (run canvas a (repeat Tick m)).
Proof.
  induction m as [|m IH]; intros k a Hk Hinv.
  - now rewrite Nat.add_0_r.
  - cbn [repeat]. rewrite run_cons.
    replace (k + S m)%nat with (S k + m)%nat by lia.
    apply IH; [lia|]. apply dive_inv_step; [lia | exact Hinv].
Qed.

End DiveRun.

(** The interval callback keeps the view of the render in which the
    effect last ran.  A jump that changes the centre and not the zoom
    (here from one landmark at zoom 100 to another) does not run the
    effect again, and the next tick eases towards the plane point the
    target had in the earlier view. *)
Example dive_stale_view :
  let app :=
    run canvas800x600 initialApp
      [DiveButton; MouseMove 400 300; Landmark 1; Landmark 3] in
  centerX (view app) = -0.1011
  /\ centerX (dive_view app) = -0.7463
  /\ zoomTarget app = (canvasW canvas800x600 / 2, canvasH canvas800x600 / 2)
  /\ centerX (view (step canvas800x600 app Tick)) = -0.23014.
Proof. vm_compute. repeat split. Qed.

(** ** Invariants of the view *)

Lemma landmark_zoom_pos (idx : nat) (loc : Location) :
  nth_error INTERESTING_LOCATIONS idx = Some loc -> (0 <? loc_z loc) = true.
Proof.
  intros H. apply nth_error_In in H.
  assert (Hall : forallb (fun l => 0 <? loc_z l) INTERESTING_LOCATIONS = true)
    by reflexivity.
  rewrite forallb_forall in Hall. now apply Hall.
Qed.

Lemma challenge_zoom_pos (idx : nat) (loc : Location) :
  nth_error DAILY_CHALLENGES idx = Some loc -> (0 <? loc_z loc) = true.
Proof.
  intros H. apply nth_error_In in H.
  assert (Hall : forallb (fun l => 0 <? loc_z l) DAILY_CHALLENGES = true)
    by reflexivity.
  rewrite forallb_forall in Hall. now apply Hall.
Qed.

Ltac handler_cases :=
  repeat match goal with
    | |- context [match ?ev with MouseDown _ _ _ => _ | _ => _ end] =>
        destruct ev
    | |- context [if ?b then _ else _] => destruct b eqn:?
    | |- context [match nth_error ?l ?i with _ => _ end] =>
        destruct (nth_error l i) eqn:?
    end;
  cbn [view with_view toggleDive zoom maxIterations zoomOut zoomIn jumpTo
       setIterations setScheme clickZoom panBy diveTick defaultView].

Lemma handle_maxIterations (canvas : Canvas) (app : App) (ev : Event) :
  (1 <= maxIterations (view app))%nat ->
  (1 <= maxIterations (view (handle canvas app ev)))%nat.
Proof.
  intros H. unfold handle, handleCanvasClick. handler_cases;
    unfold range_value; lia.
Qed.

Lemma handle_zoom_nonneg (canvas : Canvas) (app : App) (ev : Event) :
  (0 <=? zoom (view app)) = true ->
  (0 <=? zoom (view (handle canvas app ev))) = true.
Proof.
  intros H. unfold handle, handleCanvasClick. handler_cases;
    first [ assumption
          | reflexivity
          | now apply mul_2_nonneg
          | now apply mul_105_nonneg
          | now apply div_2_nonneg
          | eapply ltb_zero_leb, landmark_zoom_pos; eassumption
          | eapply ltb_zero_leb, challenge_zoom_pos; eassumption ].
Qed.

Lemma handle_zoom_pos (canvas : Canvas) (app : App) (ev : Event) :
  (ev = ZoomOutButton -> zoom (view app) <> min_positive) ->
  (0 <? zoom (view app)) = true ->
  (0 <? zoom (view (handle canvas app ev))) = true.
Proof.
  intros Hev H. unfold handle, handleCanvasClick. handler_cases;
    first [ assumption
          | reflexivity
          | now apply mul_2_pos
          | now apply mul_105_pos
          | now apply div_2_pos; auto
          | eapply landmark_zoom_pos; eassumption
          | eapply challenge_zoom_pos; eassumption ].
Qed.

Lemma run_invariants (canvas : Canvas) (evs : list Event) :
  forall app,
    (1 <= maxIterations (view app))%nat ->
    (0 <=? zoom (view app)) = true ->
    (1 <= maxIterations (view (run canvas app evs)))%nat
    /\ (0 <=? zoom (view (run canvas app evs))) = true.
Proof.
  induction evs as [|ev evs IH]; intros app Hm Hz; [now split|].
  rewrite run_cons. apply IH; rewrite view_step.
  - now apply handle_maxIterations.
  - now apply handle_zoom_nonneg.
Qed.

Lemma run_zoom_pos (canvas : Canvas) (evs : list Event) :
  ~ In ZoomOutButton evs ->
  forall app,
    (0 <? zoom (view app)) = true ->
    (0 <? zoom (view (run canvas app evs))) = true.
Proof.
  induction evs as [|ev evs IH]; intros Hno app Hz; [exact Hz|].
  rewrite run_cons. apply IH.
  - intros Hin. apply Hno. now right.
  - rewrite view_step. apply handle_zoom_pos; [|exact Hz].
    intros ->. exfalso. apply Hno. now left.
Qed.

(** ** The orbit of the root point *)

(** The orbit of [c = -0.5] enters a cycle of length 2 after 114 turns
    and never leaves the disc. *)
Lemma root_orbit_in_disc (k : nat) :
  in_disc (Nat.iter k (escape_step (-0.5) 0) (0, 0)) = true.
Proof.
  apply (periodic_forall (escape_step (-0.5) 0) in_disc (0, 0) 114 2).
  - lia.
  - vm_compute. reflexivity.
  - vm_compute. reflexivity.
Qed.

(* ================================================================== *)
(** * The claims *)
(* ================================================================== *)

(** C1, as the loop computes it. A point outside the disc of radius 2
    is detected at the second test, after one turn: the count is 1. *)
Theorem iterate_outside_returns_one (x0 y0 : float) (maxIter : nat) :
  (4 <? x0 * x0 + y0 * y0) = true ->
  (1 <= maxIter)%nat ->
  iterate x0 y0 maxIter = 1%nat.
Proof.
  intros Hout HN. destruct maxIter as [|n]; [lia|].
  change (iterate x0 y0 (S n))
    with (escape_loop x0 y0 n (0 + x0, 0 + y0) 1).
  destruct n as [|n]; [reflexivity|].
  cbn [escape_loop in_disc].
  rewrite !add_zero_l_square, (ltb_leb_false _ _ Hout). reflexivity.
Qed.

Lemma iterate_outside_returns_one_witness : iterate 3 3 500 = 1%nat.
Proof.
  apply (iterate_outside_returns_one 3 3 500); [reflexivity | lia].
Defined.

(** C1 fails as stated: (3, 3) lies outside the disc and the count is 1,
    not 0. *)
Lemma iterate_outside_not_zero :
  (4 <? 3 * 3 + 3 * 3) = true
  /\ iterate 3 3 1 = 1%nat
  /\ iterate 3 3 1 <> 0%nat.
Proof. repeat split; try reflexivity. discriminate. Qed.

(** C2 at a failing input. For the matrix scheme the green channel is
    [Math.round(255 * t * 2)] without a clamp: at 100 of 120 iterations
    it is 425; only the store into the image buffer brings it to 255.
    The fire scheme returns its ramp unrounded. *)
Theorem getColor_matrix_exceeds_byte (now : float) :
  getColor now 100 120 matrix = (0, 425, 0)
  /\ (255 <? 425) = true
  /\ JS.ToUint8Clamp 425 = 255%Z
  /\ getColor now 1 120 fire = (4.25, 0, 0).
Proof. repeat split. Qed.

(** C3. The point [-0.5] never escapes, whatever the cap.  With the
    default view on a canvas of 800 by 600 pixels the centre pixel
    (400, 300) is the plane point (-0.5, 0), its colour is black, and the
    image buffer holds (0, 0, 0, 255) in its slot. *)
Theorem root_point_never_escapes :
  (forall N : nat, iterate (-0.5) 0 N = N)
  /\ forall (clock : nat -> nat -> float) (left top : float),
       let canvas := mkCanvas 800 600 left top in
       let i := pixelIndex canvas 400 300 in
       planeX defaultView canvas (JS.num_of_nat 400) = -0.5
       /\ planeY defaultView canvas (JS.num_of_nat 300) = 0
       /\ pixelColor (clock 400%nat 300%nat) defaultView canvas 400 300
          = (0, 0, 0)
       /\ exists data,
            draw clock defaultView canvas = Some data
            /\ data !! i = Some 0%Z
            /\ data !! (i + 1)%nat = Some 0%Z
            /\ data !! (i + 2)%nat = Some 0%Z
            /\ data !! (i + 3)%nat = Some 255%Z.
Proof.
  split.
  - intros N. unfold iterate.
    rewrite escape_loop_inside; [reflexivity|].
    intros k _. apply root_orbit_in_disc.
  - intros clock left top canvas i.
    destruct (draw_painted clock defaultView canvas 400 300) as (data & Hd & Hp);
      [unfold canvas; cbn [width height]; lia
      |unfold canvas; cbn [width height]; lia|].
    assert (Hb : pixelBytes clock defaultView canvas 400 300
                 = [0; 0; 0; 255]%Z) by (vm_compute; reflexivity).
    unfold painted in Hp. rewrite Hb in Hp. fold i in Hp.
    split; [vm_compute; reflexivity|].
    split; [vm_compute; reflexivity|].
    split; [vm_compute; reflexivity|].
    exists data. split; [exact Hd|].
    split; [rewrite <- (Nat.add_0_r i); exact (Hp 0%nat 0%Z eq_refl)|].
    split; [exact (Hp 1%nat 0%Z eq_refl)|].
    split; [exact (Hp 2%nat 0%Z eq_refl)|].
    exact (Hp 3%nat 255%Z eq_refl).
Qed.



(** Twenty multiplications by 1.05 starting from 1, each rounded to
    binary64. *)
Lemma dive_zoom_20 :
  dive_zoom 20 1 = 2.6532977051444226
  /\ (2.653 <? dive_zoom 20 1) = true /\ (dive_zoom 20 1 <? 2.654) = true.
Proof. vm_compute. repeat split. Qed.


(** C5, where the scale is finite. A click at any pixel [(x, y)] makes
    the plane point of that pixel, under the view before the click, the
    new centre, doubles the zoom and keeps the iteration cap and the
    colour scheme.  When the canvas is regular, the scale [3.5 / zoom]
    of the view is finite and its centre is not NaN, a click at the
    exact centre pixel leaves [centerX] and [centerY] unchanged (as
    [===] compares them) and doubles the zoom. *)
Theorem click_zoom_centre :
  (forall (canvas : Canvas) (app : App) (clientX clientY : float),
      let x := clientX - rect_left canvas in
      let y := clientY - rect_top canvas in
      let app' :=
        run canvas app
          [MouseDown 0 clientX clientY; MouseUp false clientX clientY] in
      centerX (view app') = planeX (view app) canvas x
      /\ centerY (view app') = planeY (view app) canvas y
      /\ zoom (view app') = zoom (view app) * 2
      /\ maxIterations (view app') = maxIterations (view app)
      /\ colorScheme (view app') = colorScheme (view app))
  /\ (forall (canvas : Canvas) (app : App) (clientX clientY : float),
         let x := clientX - rect_left canvas in
         let y := clientY - rect_top canvas in
         let app' :=
           run canvas app
             [MouseDown 0 clientX clientY; MouseUp false clientX clientY] in
         canvas_regular canvas = true ->
         scale_finite (zoom (view app)) = true ->
         centre_defined (view app) = true ->
         (x =? canvasW canvas / 2) = true ->
         (y =? canvasH canvas / 2) = true ->
         (centerX (view app') =? centerX (view app)) = true
         /\ (centerY (view app') =? centerY (view app)) = true
         /\ zoom (view app') = zoom (view app) * 2).
Proof.
  split.
  - intros canvas app clientX clientY x y app'.
    unfold app'. rewrite click_view. fold x y.
    cbn [clickZoom centerX centerY zoom maxIterations colorScheme].
    repeat split.
  - intros canvas app clientX clientY x y app' Hcanvas Hscale Hcentre Hx Hy.
    destruct (canvas_regular_elim canvas Hcanvas)
      as (Hw & Hh & Ha & Hw2 & Hh2).
    destruct (centre_defined_elim _ Hcentre) as [Hcx Hcy].
    apply is_finite_Finite in Hscale.
    unfold app'. rewrite click_view. fold x y.
    cbn [clickZoom centerX centerY zoom].
    repeat split.
    + now apply planeX_centre.
    + now apply planeY_centre.
Qed.

Lemma click_zoom_centre_witness :
  let app' :=
    run canvas800x600 initialApp [MouseDown 0 400 300; MouseUp false 400 300] in
  (centerX (view app') = planeX defaultView canvas800x600 (400 - 0)
   /\ centerY (view app') = planeY defaultView canvas800x600 (300 - 0)
   /\ zoom (view app') = 1 * 2
   /\ maxIterations (view app') = 120%nat
   /\ colorScheme (view app') = classic)
  /\ ((centerX (view app') =? -0.5) = true
      /\ (centerY (view app') =? 0) = true
      /\ zoom (view app') = 1 * 2).
Proof.
  split.
  - apply (proj1 click_zoom_centre canvas800x600 initialApp 400 300).
  - apply (proj2 click_zoom_centre canvas800x600 initialApp 400 300);
      reflexivity.
Defined.

(** C5 fails as stated at the bottom of the range of binary64: after
    1074 clicks on the zoom-out button the zoom is still positive, the
    scale [3.5 / zoom] overflows to infinity, and a click at the exact
    centre pixel replaces the centre by NaN. *)
Lemma click_centre_overflow :
  let app := run canvas800x600 initialApp (repeat ZoomOutButton 1074) in
  let app' :=
    run canvas800x600 app [MouseDown 0 400 300; MouseUp false 400 300] in
  (0 <? zoom (view app)) = true
  /\ (400 - rect_left canvas800x600 =? canvasW canvas800x600 / 2) = true
  /\ (300 - rect_top canvas800x600 =? canvasH canvas800x600 / 2) = true
  /\ centerX (view app) = -0.5
  /\ is_nan (centerX (view app')) = true
  /\ (centerX (view app') =? centerX (view app)) = false.
Proof. vm_compute. repeat split. Qed.

(** C6, as binary64 arithmetic allows it. Every navigation event
    preserves [maxIterations >= 1] and [zoom >= 0] (the zoom is never
    negative and never NaN), and preserves [zoom > 0] unless it is a
    click on the zoom-out button at the smallest positive zoom.  Hence,
    from the default view, every sequence of events leaves
    [maxIterations >= 1] and [zoom >= 0], and [zoom > 0] when the
    zoom-out button is not among them. *)
Theorem navigation_invariants :
  (forall (canvas : Canvas) (app : App) (ev : Event),
      (1 <= maxIterations (view app))%nat ->
      (0 <=? zoom (view app)) = true ->
      (1 <= maxIterations (view (step canvas app ev)))%nat
      /\ (0 <=? zoom (view (step canvas app ev))) = true)
  /\ (forall (canvas : Canvas) (app : App) (ev : Event),
         (0 <? zoom (view app)) = true ->
         (ev = ZoomOutButton -> zoom (view app) <> min_positive) ->
         (0 <? zoom (view (step canvas app ev))) = true)
  /\ (forall (canvas : Canvas) (evs : list Event),
         let v := view (run canvas initialApp evs) in
         (1 <= maxIterations v)%nat
         /\ (0 <=? zoom v) = true
         /\ (~ In ZoomOutButton evs -> (0 <? zoom v) = true)).
Proof.
  split; [|split].
  - intros canvas app ev Hm Hz. rewrite view_step. split.
    + now apply handle_maxIterations.
    + now apply handle_zoom_nonneg.
  - intros canvas app ev Hz Hev. rewrite view_step.
    now apply handle_zoom_pos.
  - intros canvas evs v.
    destruct (run_invariants canvas evs initialApp) as [Hm Hz];
      [cbn; lia | reflexivity |].
    split; [exact Hm|]. split; [exact Hz|].
    intros Hno. now apply run_zoom_pos.
Qed.

Lemma navigation_invariants_witness :
  let app := run canvas800x600 initialApp (repeat ZoomOutButton 1073) in
  (0 <? zoom (view (step canvas800x600 app ZoomOutButton))) = true.
Proof.
  apply (proj1 (proj2 navigation_invariants) canvas800x600
           (run canvas800x600 initialApp (repeat ZoomOutButton 1073))
           ZoomOutButton).
  - reflexivity.
  - intros _ H. apply (f_equal Prim2SF) in H. vm_compute in H. discriminate.
Defined.

(** C6 fails as stated: halving underflows.  From the default view 1075
    clicks on the zoom-out button leave the zoom at 0; the last of them
    is applied at the smallest positive zoom. *)
Lemma zoom_out_underflow :
  let app := run canvas800x600 initialApp (repeat ZoomOutButton 1074) in
  let v := view (step canvas800x600 app ZoomOutButton) in
  (1 <= maxIterations (view app))%nat
  /\ (0 <? zoom (view app)) = true
  /\ zoom (view app) = min_positive
  /\ view (run canvas800x600 initialApp (repeat ZoomOutButton 1075)) = v
  /\ zoom v = 0
  /\ (0 <? zoom v) = false.
Proof. vm_compute. repeat split. lia. Qed.

(** C7. For a fixed point the count is non-decreasing in the cap, and it
    never exceeds the cap. *)
Theorem iterate_monotone_bounded (x0 y0 : float) (N N' : nat) :
  (N <= N')%nat ->
  (iterate x0 y0 N <= iterate x0 y0 N')%nat
  /\ (iterate x0 y0 N' <= N')%nat.
Proof.
  intros H. split.
  - now apply escape_loop_mono.
  - apply (escape_loop_upper x0 y0 N' (0, 0) 0).
Qed.

Lemma iterate_monotone_bounded_witness :
  (iterate (-0.75) 0.1 10 <= iterate (-0.75) 0.1 50)%nat
  /\ (iterate (-0.75) 0.1 50 <= 50)%nat.
Proof.
  apply (iterate_monotone_bounded (-0.75) 0.1 10 50). lia.
Defined.

(** C8. The clock only reaches the result through the psychedelic
    branch: for every other scheme two calls on the same arguments agree
    whenever they run, and for the psychedelic scheme they can differ. *)
Theorem getColor_clock_independent :
  (forall now1 now2 iteration maxIter scheme,
      scheme <> psychedelic ->
      getColor now1 iteration maxIter scheme
      = getColor now2 iteration maxIter scheme)
  /\ getColor 1700000000000 60 120 psychedelic
     <> getColor 1700000001000 60 120 psychedelic.
Proof.
  split.
  - intros now1 now2 iteration maxIter scheme Hs. unfold getColor.
    destruct scheme; try reflexivity. congruence.
  - vm_compute. discriminate.
Qed.

Lemma getColor_clock_independent_witness :
  getColor 0 60 120 sunset = getColor 1700000000000 60 120 sunset.
Proof.
  apply (proj1 getColor_clock_independent). discriminate.
Defined.

(** C9. A count equal to the cap is coloured black under every scheme,
    at any time. *)
Theorem getColor_in_set_black (now maxIter : float) (scheme : ColorScheme) :
  (1 <=? maxIter) = true ->
  getColor now maxIter maxIter scheme = (0, 0, 0).
Proof.
  intros H. unfold getColor. now rewrite (leb_eqb_refl 1 maxIter H).
Qed.

Lemma getColor_in_set_black_witness :
  getColor 1700000000000 120 120 psychedelic = (0, 0, 0).
Proof.
  apply (getColor_in_set_black 1700000000000 120 psychedelic). reflexivity.
Defined.

(** C10. For every point and every cap of at least 1, the first test of
    the loop passes (z starts at 0), so the body runs at least once: the
    count returned is what the loop returns after one turn, and it lies
    between 1 and the cap; 0 is never returned. *)
Theorem iterate_at_least_one (x0 y0 : float) (maxIter : nat) :
  (1 <= maxIter)%nat ->
  in_disc (0, 0) = true
  /\ iterate x0 y0 maxIter
     = escape_loop x0 y0 (maxIter - 1) (escape_step x0 y0 (0, 0)) 1
  /\ (1 <= iterate x0 y0 maxIter <= maxIter)%nat
  /\ iterate x0 y0 maxIter <> 0%nat.
Proof.
  intros HN. destruct maxIter as [|n]; [lia|].
  assert (Hstep : iterate x0 y0 (S n)
                  = escape_loop x0 y0 n (escape_step x0 y0 (0, 0)) 1)
    by reflexivity.
  pose proof (escape_loop_lower x0 y0 n (escape_step x0 y0 (0, 0)) 1) as Hlo.
  pose proof (escape_loop_upper x0 y0 (S n) (0, 0) 0) as Hup.
  fold (iterate x0 y0 (S n)) in Hup.
  replace (S n - 1)%nat with n by lia.
  repeat split; try reflexivity; try assumption; lia.
Qed.

Lemma iterate_at_least_one_witness :
  (1 <= iterate (-0.75) 0.1 40 <= 40)%nat.
Proof.
  apply (iterate_at_least_one (-0.75) 0.1 40). lia.
Defined.

(* ================================================================== *)
(** * Further properties of the code *)
(* ================================================================== *)

(** ** More on the escape-time loop *)

Section FirstExit.

Variables x0 y0 : float.

(** The loop stops at the first state outside the disc, or at the cap. *)
Lemma escape_loop_first_exit (r : nat) :
  forall z i,
  exists j,
    escape_loop x0 y0 r z i = (i + j)%nat
    /\ (j <= r)%nat
    /\ (forall k, (k < j)%nat ->
                  in_disc (Nat.iter k (escape_step x0 y0) z) = true)
    /\ ((j < r)%nat -> in_disc (Nat.iter j (escape_step x0 y0) z) = false).
Proof.
  induction r as [|r IH]; intros z i.
  - exists 0%nat. simpl. split; [lia|]. split; [lia|]. split; intros; lia.
  - simpl. destruct (in_disc z) eqn:Hz.
    + destruct (IH (escape_step x0 y0 z) (S i)) as (j & Hj & Hle & Hin & Hout).
      exists (S j). split; [lia|]. split; [lia|]. split.
      * intros [|k] Hk; [exact Hz|].
        rewrite Nat.iter_succ_r. apply Hin. lia.
      * intros Hlt. rewrite Nat.iter_succ_r. apply Hout. lia.
    + exists 0%nat. split; [lia|]. split; [lia|]. split.
      * intros k Hk. lia.
      * intros _. exact Hz.
Qed.

(** Once the orbit has left the disc, a larger cap does not change the
    count. *)
Lemma escape_loop_stable (r : nat) :
  forall r' z i,
    (escape_loop x0 y0 r z i < i + r)%nat -> (r <= r')%nat ->
    escape_loop x0 y0 r' z i = escape_loop x0 y0 r z i.
Proof.
  induction r as [|r IH]; intros r' z i Hlt Hle; simpl in *; [lia|].
  destruct r' as [|r']; [lia|]. simpl.
  destruct (in_disc z); [|reflexivity].
  apply IH; lia.
Qed.

End FirstExit.

Lemma is_nan_Prim2SF (x : float) : is_nan x = true -> Prim2SF x = S754_nan.
Proof.
  unfold is_nan. rewrite FloatAxioms.eqb_spec. unfold SFeqb.
  destruct (Prim2SF x) as [s|s| |s m e] eqn:Hx; try reflexivity;
    rewrite SFcompare_refl by discriminate; discriminate.
Qed.

Lemma not_Finite_is_finite (x : float) : ~ Finite x -> is_finite x = false.
Proof.
  intros H. destruct (is_finite x) eqn:E; [|reflexivity].
  now apply is_finite_Finite in E.
Qed.

Lemma is_finite_not_Finite (x : float) : is_finite x = false -> ~ Finite x.
Proof.
  unfold is_finite, is_nan, is_infinity, Finite.
  rewrite !FloatAxioms.eqb_spec, FloatAxioms.abs_spec.
  change (Prim2SF infinity) with (S754_infinity false).
  destruct (Prim2SF x) as [s|s| |s m e]; simpl; try tauto.
  - now destruct s.
  - unfold SFeqb. rewrite SFcompare_refl by discriminate.
    simpl. discriminate.
Qed.

(** An infinite or NaN coordinate puts the point outside the disc. *)
Lemma not_finite_not_in_disc (x y : float) :
  ~ Finite x \/ ~ Finite y -> (x * x + y * y <=? 4) = false.
Proof.
  unfold Finite.
  rewrite FloatAxioms.leb_spec, FloatAxioms.add_spec, !FloatAxioms.mul_spec.
  unfold SF64add, SF64mul. intros H.
  assert (Hsq : forall a,
             match SFmul prec emax a a with
             | S754_infinity true | S754_zero true
             | S754_finite true _ _ => False
             | _ => True
             end).
  { intros [[]|[]| |[] m e]; simpl; auto.
    - pose proof (binary_round_aux_signed false (Z.pos (m * m)) (e + e)
                    loc_Exact ltac:(lia)) as Hs.
      destruct (binary_round_aux _ _ _ _ _ _) as [[]|[]| |[] ? ?];
        simpl in Hs; auto; discriminate.
    - pose proof (binary_round_aux_signed false (Z.pos (m * m)) (e + e)
                    loc_Exact ltac:(lia)) as Hs.
      destruct (binary_round_aux _ _ _ _ _ _) as [[]|[]| |[] ? ?];
        simpl in Hs; auto; discriminate. }
  pose proof (Hsq (Prim2SF x)) as Hx. pose proof (Hsq (Prim2SF y)) as Hy.
  destruct H as [H|H].
  - destruct (Prim2SF x) as [sx|sx| |sx mx ex];
      [now destruct H | | reflexivity | now destruct H].
    replace (SFmul prec emax (S754_infinity sx) (S754_infinity sx))
      with (S754_infinity false) by now destruct sx.
    destruct (SFmul prec emax (Prim2SF y) (Prim2SF y)) as [[]|[]| |[] ? ?];
      simpl in Hy |- *; try reflexivity; destruct Hy.
  - destruct (Prim2SF y) as [sy|sy| |sy my ey];
      [now destruct H | | | now destruct H].
    + replace (SFmul prec emax (S754_infinity sy) (S754_infinity sy))
        with (S754_infinity false) by now destruct sy.
      destruct (SFmul prec emax (Prim2SF x) (Prim2SF x)) as [[]|[]| |[] ? ?];
        simpl in Hx |- *; try reflexivity; destruct Hx.
    + change (SFmul prec emax S754_nan S754_nan) with S754_nan.
      now destruct (SFmul prec emax (Prim2SF x) (Prim2SF x)).
Qed.

Lemma add_zero_l_Finite (x : float) : Finite (0 + x) -> Finite x.
Proof.
  unfold Finite. rewrite FloatAxioms.add_spec.
  change (Prim2SF 0) with (S754_zero false).
  now destruct (Prim2SF x) as [[]|[]| |[] m e].
Qed.

Lemma iterate_at_infinity (x0 y0 : float) (maxIter : nat) :
  ~ Finite x0 \/ ~ Finite y0 ->
  (1 <= maxIter)%nat ->
  iterate x0 y0 maxIter = 1%nat.
Proof.
  intros Hnf HN. destruct maxIter as [|n]; [lia|].
  change (iterate x0 y0 (S n))
    with (escape_loop x0 y0 n (0 * 0 - 0 * 0 + x0, 2 * 0 * 0 + y0) 1).
  destruct n as [|n]; [reflexivity|].
  cbn [escape_loop in_disc].
  change (0 * 0 - 0 * 0) with 0. change (2 * 0 * 0) with 0.
  rewrite !add_zero_l_square, (not_finite_not_in_disc _ _ Hnf). reflexivity.
Qed.

(** X1. The count is the index of the first state of the orbit outside
    the disc of radius 2, or the cap when the first [maxIter] states all
    lie inside. *)
Theorem iterate_first_exit (x0 y0 : float) (maxIter : nat) :
  let n := iterate x0 y0 maxIter in
  (n <= maxIter)%nat
  /\ (forall k, (k < n)%nat -> in_disc (orbit x0 y0 k) = true)
  /\ ((n < maxIter)%nat -> in_disc (orbit x0 y0 n) = false).
Proof.
  intros n. unfold n, iterate, orbit.
  destruct (escape_loop_first_exit x0 y0 maxIter (0, 0) 0)
    as (j & Hj & Hle & Hin & Hout).
  rewrite Hj. simpl. auto.
Qed.

(** X2. When the count is below the cap (the point escaped), every
    larger cap gives the same count. *)
Theorem iterate_cap_stable (x0 y0 : float) (N N' : nat) :
  (iterate x0 y0 N < N)%nat -> (N <= N')%nat ->
  iterate x0 y0 N' = iterate x0 y0 N.
Proof.
  intros Hlt Hle. apply escape_loop_stable; [exact Hlt | exact Hle].
Qed.

Lemma iterate_cap_stable_witness :
  iterate (-0.75) 0.1 1000 = iterate (-0.75) 0.1 50.
Proof.
  apply (iterate_cap_stable (-0.75) 0.1 50 1000); [vm_compute; lia | lia].
Defined.

(** X3. An infinite or NaN coordinate (what the view transform yields
    once the scale has overflowed) counts as an escape at the first
    turn. *)
Theorem iterate_not_finite (x0 y0 : float) (maxIter : nat) :
  is_finite x0 = false \/ is_finite y0 = false ->
  (1 <= maxIter)%nat ->
  iterate x0 y0 maxIter = 1%nat.
Proof.
  intros H HN. apply iterate_at_infinity; [|exact HN].
  destruct H as [H|H]; [left | right]; now apply is_finite_not_Finite.
Qed.

Lemma iterate_not_finite_witness : iterate nan 0 120 = 1%nat.
Proof.
  apply (iterate_not_finite nan 0 120); [left; reflexivity | lia].
Defined.

(** ** The symmetry of the loop about the real axis *)

Lemma binary_round_aux_opp (s : bool) (m e : Z) (l : location) :
  binary_round_aux prec emax (negb s) m e l
  = SFopp (binary_round_aux prec emax s m e l).
Proof.
  unfold binary_round_aux.
  destruct (shr_fexp prec emax m e l) as [r1 e1].
  destruct (shr_fexp prec emax _ e1 loc_Exact) as [r2 e2].
  destruct (shr_m r2); try reflexivity.
  now destruct (e2 <=? emax - prec)%Z.
Qed.

Lemma binary_normalize_opp (m e : Z) :
  SFmirror (binary_normalize prec emax m e false)
    (binary_normalize prec emax (- m) e false).
Proof.
  destruct m as [|p|p]; simpl.
  - right. now split.
  - left. unfold binary_round. destruct (shl_align _ _ _) as [mz ez].
    apply (binary_round_aux_opp false).
  - left. unfold binary_round. destruct (shl_align _ _ _) as [mz ez].
    rewrite (binary_round_aux_opp false).
    now destruct (binary_round_aux prec emax false (Z.pos mz) ez loc_Exact)
      as [[]|[]| |[] ? ?].
Qed.

Lemma SFmirror_opp (a : spec_float) : SFmirror a (SFopp a).
Proof. now left. Qed.

Lemma SFmirror_zero : SFmirror (S754_zero false) (S754_zero false).
Proof. right. now split. Qed.

(** The square does not see the sign. *)
Lemma SFmul_mirror_square (a b : spec_float) :
  SFmirror a b -> SFmul prec emax b b = SFmul prec emax a a.
Proof.
  intros [->|[Ha Hb]].
  - destruct a as [[]|[]| |[] m e]; reflexivity.
  - destruct a as [[]|[]| |[] ? ?], b as [[]|[]| |[] ? ?];
      simpl in *; try easy.
Qed.

Lemma SFmul_mirror (x a b : spec_float) :
  SFmirror a b -> SFmirror (SFmul prec emax x a) (SFmul prec emax x b).
Proof.
  intros [->|[Ha Hb]].
  - left. destruct x as [sx|sx| |sx mx ex], a as [sa|sa| |sa ma ea];
      simpl; try reflexivity;
      try (now destruct sx, sa).
    replace (xorb sx (negb sa)) with (negb (xorb sx sa))
      by now destruct sx, sa.
    apply binary_round_aux_opp.
  - destruct a as [sa|sa| |sa ? ?], b as [sb|sb| |sb ? ?];
      simpl in Ha, Hb; try easy.
    destruct x as [sx|sx| |sx mx ex]; simpl.
    + right. now split.
    + now left.
    + now left.
    + right. now split.
Qed.

Lemma cond_Zopp_negb (s : bool) (m : Z) :
  cond_Zopp (negb s) m = (- cond_Zopp s m)%Z.
Proof. destruct s; simpl; lia. Qed.

Lemma SFadd_mirror (a b c d : spec_float) :
  SFmirror a b -> SFmirror c d ->
  SFmirror (SFadd prec emax a c) (SFadd prec emax b d).
Proof.
  intros [->|[Ha Hb]] [->|[Hc Hd]].
  - destruct a as [sa|sa| |sa ma ea], c as [sc|sc| |sc mc ec]; simpl;
      try (now left); try (destruct sa, sc; simpl; (now left) || (right; now split)).
    rewrite !cond_Zopp_negb, <- Z.opp_add_distr.
    apply binary_normalize_opp.
  - destruct c as [sc|sc| |sc ? ?], d as [sd|sd| |sd ? ?];
      simpl in Hc, Hd; try easy.
    destruct a as [sa|sa| |sa ma ea]; simpl.
    + right. destruct sa, sc, sd; now split.
    + now left.
    + now left.
    + now left.
  - destruct a as [sa|sa| |sa ? ?], b as [sb|sb| |sb ? ?];
      simpl in Ha, Hb; try easy.
    destruct c as [sc|sc| |sc mc ec]; simpl.
    + right. destruct sa, sb, sc; now split.
    + now left.
    + now left.
    + now left.
  - destruct a as [sa|sa| |sa ? ?], b as [sb|sb| |sb ? ?];
      simpl in Ha, Hb; try easy.
    destruct c as [sc|sc| |sc ? ?], d as [sd|sd| |sd ? ?];
      simpl in Hc, Hd; try easy.
    right. destruct sa, sb, sc, sd; now split.
Qed.

Section Conjugate.

Variables x0 y0 : float.

(** Two states with the same real part and mirrored imaginary parts are
    tested alike, and stepped to such states. *)
Lemma in_disc_mirror (x y y' : float) :
  SFmirror (Prim2SF y) (Prim2SF y') ->
  in_disc (x, y') = in_disc (x, y).
Proof.
  intros H. unfold in_disc.
  rewrite !FloatAxioms.leb_spec, !FloatAxioms.add_spec, !FloatAxioms.mul_spec.
  unfold SF64add, SF64mul. now rewrite (SFmul_mirror_square _ _ H).
Qed.

Lemma escape_step_mirror (x y y' : float) :
  SFmirror (Prim2SF y) (Prim2SF y') ->
  fst (escape_step x0 (- y0) (x, y')) = fst (escape_step x0 y0 (x, y))
  /\ SFmirror (Prim2SF (snd (escape_step x0 y0 (x, y))))
       (Prim2SF (snd (escape_step x0 (- y0) (x, y')))).
Proof.
  intros H. cbn [escape_step fst snd]. split.
  - apply Prim2SF_inj.
    rewrite !FloatAxioms.add_spec, !FloatAxioms.sub_spec,
      !FloatAxioms.mul_spec.
    unfold SF64add, SF64sub, SF64mul.
    now rewrite (SFmul_mirror_square _ _ H).
  - rewrite !FloatAxioms.add_spec, !FloatAxioms.mul_spec,
      FloatAxioms.opp_spec.
    unfold SF64add, SF64mul.
    apply SFadd_mirror; [now apply SFmul_mirror | apply SFmirror_opp].
Qed.

Lemma escape_loop_mirror (r : nat) :
  forall x y y' i,
    SFmirror (Prim2SF y) (Prim2SF y') ->
    escape_loop x0 (- y0) r (x, y') i = escape_loop x0 y0 r (x, y) i.
Proof.
  induction r as [|r IH]; intros x y y' i H; [reflexivity|].
  cbn [escape_loop]. rewrite (in_disc_mirror x y y' H).
  destruct (in_disc (x, y)); [|reflexivity].
  destruct (escape_step_mirror x y y' H) as [Hx Hy].
  destruct (escape_step x0 (- y0) (x, y')) as [x1' y1'].
  destruct (escape_step x0 y0 (x, y)) as [x1 y1].
  cbn [fst snd] in Hx, Hy. subst x1'. now apply IH.
Qed.

End Conjugate.

(** X4. The picture is symmetric about the real axis: a point and its
    complex conjugate get the same count, for every cap (and for
    infinite or NaN coordinates too). *)
Theorem iterate_conjugate (x0 y0 : float) (maxIter : nat) :
  iterate x0 (- y0) maxIter = iterate x0 y0 maxIter.
Proof.
  unfold iterate. apply escape_loop_mirror. apply SFmirror_zero.
Qed.

(** X5. The literal [while] loop returns after at most [maxIterations]
    turns, for every point: with that much fuel or more it yields the
    count. *)
Theorem while_escape_returns (x0 y0 : float) (maxIter fuel : nat) :
  (maxIter <= fuel)%nat ->
  while_escape fuel x0 y0 maxIter (0, 0) 0 = Some (iterate x0 y0 maxIter).
Proof.
  intros Hf. unfold iterate.
  rewrite (while_escape_escape_loop x0 y0 maxIter fuel (0, 0) 0%nat) by lia.
  now rewrite Nat.sub_0_r.
Qed.

Lemma while_escape_returns_witness :
  while_escape 200 (-0.75) 0.1 120 (0, 0) 0
  = Some (iterate (-0.75) 0.1 120).
Proof.
  apply (while_escape_returns (-0.75) 0.1 120 200). lia.
Defined.

(** ** More on the sweep of [draw] *)

(** A store into the pixel buffer writes a byte. *)
Lemma ToUint8Clamp_range (x : float) : (0 <= JS.ToUint8Clamp x <= 255)%Z.
Proof.
  unfold JS.ToUint8Clamp.
  destruct (is_nan x); [lia|].
  destruct (x <=? 0) eqn:H0; [lia|].
  destruct (255 <=? x) eqn:H255; [lia|].
  rewrite FloatAxioms.leb_spec in H0, H255.
  change (Prim2SF 0) with (S754_zero false) in H0.
  change (Prim2SF 255) with (S754_finite false 8972014882652160%positive (-45)%Z) in H255.
  destruct (Prim2SF x) as [s|s| |s m e] eqn:Hx; try lia.
  destruct (valid_digits x s m e Hx) as [_ Hd].
  destruct s; [discriminate H0|].
  unfold SFleb, SFcompare in H255.
  assert (Hm : (Z.pos m < 2 ^ 53)%Z).
  { apply Z.log2_lt_pow2; lia. }
  destruct e as [|e|k].
  - discriminate H255.
  - discriminate H255.
  - assert (Hq : (0 <= Z.shiftr (Z.pos m) (Z.pos k) <= 254)%Z).
    { rewrite Z.shiftr_div_pow2 by lia. split.
      - apply Z.div_pos; lia.
      - apply Z.lt_succ_r. change (Z.succ 254) with 255%Z.
        destruct (-45 ?= Z.neg k)%Z eqn:Hc.
        + apply Z.compare_eq in Hc.
          assert (k = 45%positive) by lia. subst k.
          destruct (Pos.compare_cont Eq 8972014882652160%positive m) eqn:Hp;
            try discriminate H255.
          apply Pos.compare_gt_iff in Hp.
          change (2 ^ Z.pos 45)%Z with 35184372088832%Z.
          clear - Hp.
          apply Z.div_lt_upper_bound; [reflexivity|].
          change (35184372088832 * 255)%Z with 8972014882652160%Z.
          exact Hp.
        + discriminate H255.
        + apply Z.compare_gt_iff in Hc.
          assert (Hk : (46 <= Z.pos k)%Z) by lia.
          pose proof (Z.pow_le_mono_r 2 46 (Z.pos k) ltac:(lia) Hk) as Hp.
          change (2 ^ 46)%Z with 70368744177664%Z in Hp.
          change (2 ^ 53)%Z with 9007199254740992%Z in Hm.
          clear - Hm Hp.
          apply Z.div_lt_upper_bound; lia. }
    unfold JS.split_fraction.
    set (q := Z.shiftr (Z.pos m) (Z.pos k)) in *.
    destruct (_ <? _)%Z; [lia|].
    destruct (_ <? _)%Z; [lia|].
    destruct (Z.even q); lia.
Qed.

(** A counter used as a number is not NaN. *)
Lemma num_of_nat_eqb_refl (n : nat) :
  (JS.num_of_nat n =? JS.num_of_nat n) = true.
Proof.
  unfold JS.num_of_nat. rewrite FloatAxioms.eqb_spec, of_uint63_spec.
  apply SFeqb_intro. right. split; [reflexivity|].
  destruct (Uint63.to_Z _) as [|p|p]; simpl; try discriminate.
  - unfold binary_round. destruct (shl_align _ _ _) as [mz ez].
    pose proof (binary_round_aux_signed false (Z.pos mz) ez loc_Exact
                  ltac:(lia)) as H.
    intros Hn. now rewrite Hn in H.
  - unfold binary_round. destruct (shl_align _ _ _) as [mz ez].
    pose proof (binary_round_aux_signed true (Z.pos mz) ez loc_Exact
                  ltac:(lia)) as H.
    intros Hn. now rewrite Hn in H.
Qed.

(** Only the psychedelic branch reads the clock. *)
Lemma getColor_now (now1 now2 iteration maxIter : float)
    (scheme : ColorScheme) :
  scheme <> psychedelic ->
  getColor now1 iteration maxIter scheme
  = getColor now2 iteration maxIter scheme.
Proof.
  intros Hs. unfold getColor. destruct scheme; try reflexivity. congruence.
Qed.

Section Frame.

Variables (v : ViewState) (canvas : Canvas).

Lemma drawPixel_bytes (clock : nat -> nat -> float) (px py : nat)
    (data : ImageData) :
  Forall (fun b => (0 <= b <= 255)%Z) data ->
  Forall (fun b => (0 <= b <= 255)%Z) (drawPixel clock v canvas px data py).
Proof.
  intros H. unfold drawPixel, store.
  destruct (pixelColor _ _ _ _ _) as [[r g] b].
  repeat apply Forall_insert; auto using ToUint8Clamp_range.
Qed.

Lemma column_bytes (clock : nat -> nat -> float) (px : nat)
    (pys : list nat) :
  forall data,
    Forall (fun b => (0 <= b <= 255)%Z) data ->
    Forall (fun b => (0 <= b <= 255)%Z) (column clock v canvas px data pys).
Proof.
  unfold column.
  induction pys as [|py pys IH]; intros data H; simpl; [exact H|].
  apply IH, drawPixel_bytes, H.
Qed.

Lemma columns_bytes (clock : nat -> nat -> float) (pxs : list nat) :
  forall data,
    Forall (fun b => (0 <= b <= 255)%Z) data ->
    Forall (fun b => (0 <= b <= 255)%Z) (columns clock v canvas data pxs).
Proof.
  unfold columns.
  induction pxs as [|px pxs IH]; intros data H; simpl; [exact H|].
  apply IH, column_bytes, H.
Qed.

Hypothesis Hscheme : colorScheme v <> psychedelic.

Lemma drawPixel_clock (clock1 clock2 : nat -> nat -> float) (px py : nat)
    (data : ImageData) :
  drawPixel clock1 v canvas px data py = drawPixel clock2 v canvas px data py.
Proof.
  unfold drawPixel, pixelColor.
  now rewrite (getColor_now (clock1 px py) (clock2 px py)).
Qed.

Lemma column_clock (clock1 clock2 : nat -> nat -> float) (px : nat)
    (pys : list nat) :
  forall data,
    column clock1 v canvas px data pys = column clock2 v canvas px data pys.
Proof.
  unfold column.
  induction pys as [|py pys IH]; intros data; simpl; [reflexivity|].
  now rewrite (drawPixel_clock clock1 clock2), IH.
Qed.

Lemma columns_clock (clock1 clock2 : nat -> nat -> float) (pxs : list nat) :
  forall data,
    columns clock1 v canvas data pxs = columns clock2 v canvas data pxs.
Proof.
  unfold columns.
  induction pxs as [|px pxs IH]; intros data; simpl; [reflexivity|].
  now rewrite (column_clock clock1 clock2), IH.
Qed.

End Frame.

(** A painted slot, read as a slice of the buffer. *)
Lemma painted_slot (clock : nat -> nat -> float) (v : ViewState)
    (canvas : Canvas) (data : ImageData) (px py : nat) :
  painted clock v canvas data px py ->
  take 4 (drop (pixelIndex canvas px py) data)
  = pixelBytes clock v canvas px py.
Proof.
  intros Hp. apply list_eq. intros c.
  destruct (Nat.lt_ge_cases c 4) as [Hc|Hc].
  - rewrite lookup_take_lt, lookup_drop by exact Hc.
    destruct (pixelBytes clock v canvas px py !! c) as [b|] eqn:Hb.
    + exact (Hp c b Hb).
    + apply lookup_ge_None in Hb.
      assert (length (pixelBytes clock v canvas px py) = 4%nat).
      { unfold pixelBytes. now destruct (pixelColor _ _ _ _ _) as [[r g] b]. }
      lia.
  - rewrite lookup_take_ge by exact Hc. symmetry. apply lookup_ge_None.
    unfold pixelBytes. destruct (pixelColor _ _ _ _ _) as [[r g] b].
    exact Hc.
Qed.

(** X6. [draw] produces a frame exactly when the canvas has a pixel.
    On a canvas of width or height 0 the creation of the buffer throws
    and no frame is produced; otherwise the frame has four bytes per
    pixel of the canvas. *)
Theorem draw_buffer_size (clock : nat -> nat -> float) (v : ViewState)
    (canvas : Canvas) :
  (width canvas = 0%nat \/ height canvas = 0%nat ->
   draw clock v canvas = None)
  /\ ((0 < width canvas)%nat -> (0 < height canvas)%nat ->
      exists data,
        draw clock v canvas = Some data
        /\ length data = (width canvas * height canvas * 4)%nat).
Proof.
  split.
  - apply draw_None.
  - intros Hw Hh. rewrite (draw_columns clock v canvas Hw Hh).
    eexists. split; [reflexivity|].
    rewrite columns_length. apply length_replicate.
Qed.

(** X7. After the sweep the slot of every pixel of the canvas holds the
    colour computed for that pixel, converted channel by channel as a
    store into the buffer converts, followed by the alpha 255: no later
    pixel overwrites it. *)
Theorem draw_pixel_slot (clock : nat -> nat -> float) (v : ViewState)
    (canvas : Canvas) (px py : nat) :
  (px < width canvas)%nat -> (py < height canvas)%nat ->
  exists data,
    draw clock v canvas = Some data
    /\ take 4 (drop (pixelIndex canvas px py) data)
       = pixelBytes clock v canvas px py.
Proof.
  intros Hx Hy.
  destruct (draw_painted clock v canvas px py Hx Hy) as (data & Hd & Hp).
  exists data. split; [exact Hd|]. now apply painted_slot.
Qed.

Lemma draw_pixel_slot_witness :
  exists data,
    draw (fun _ _ => 0) defaultView (mkCanvas 2 1 0 0) = Some data
    /\ take 4 (drop (pixelIndex (mkCanvas 2 1 0 0) 1 0) data)
       = pixelBytes (fun _ _ => 0) defaultView (mkCanvas 2 1 0 0) 1 0.
Proof.
  apply (draw_pixel_slot (fun _ _ => 0) defaultView (mkCanvas 2 1 0 0) 1 0);
    simpl; lia.
Defined.

(** X8. Every element of the frame is a byte: whatever [getColor]
    returns (the matrix green above 255, the fractional fire channels, a
    NaN), the buffer holds integers between 0 and 255. *)
Theorem draw_bytes (clock : nat -> nat -> float) (v : ViewState)
    (canvas : Canvas) (data : ImageData) :
  draw clock v canvas = Some data ->
  Forall (fun b => (0 <= b <= 255)%Z) data.
Proof.
  intros H. apply draw_Some in H. destruct H as (_ & _ & ->).
  apply columns_bytes. apply Forall_replicate. lia.
Qed.

Lemma draw_bytes_witness :
  Forall (fun b => (0 <= b <= 255)%Z) [0; 4; 0; 255; 0; 9; 0; 255]%Z.
Proof.
  apply (draw_bytes (fun _ _ => 0) (mkView (-0.5) 0 1 120 matrix)
           (mkCanvas 2 1 0 0)).
  vm_compute. reflexivity.
Defined.

(** X9. A pixel whose count reaches the cap is stored as opaque black,
    in every colour scheme and at any time. *)
Theorem draw_inside_black (clock : nat -> nat -> float) (v : ViewState)
    (canvas : Canvas) (px py : nat) :
  (px < width canvas)%nat -> (py < height canvas)%nat ->
  iterate (planeX v canvas (JS.num_of_nat px))
          (planeY v canvas (JS.num_of_nat py)) (maxIterations v)
  = maxIterations v ->
  exists data,
    draw clock v canvas = Some data
    /\ take 4 (drop (pixelIndex canvas px py) data) = [0; 0; 0; 255]%Z.
Proof.
  intros Hx Hy Hin.
  destruct (draw_painted clock v canvas px py Hx Hy) as (data & Hd & Hp).
  exists data. split; [exact Hd|].
  rewrite (painted_slot clock v canvas _ px py Hp).
  unfold pixelBytes, pixelColor. rewrite Hin. unfold getColor.
  now rewrite num_of_nat_eqb_refl.
Qed.

Lemma draw_inside_black_witness :
  exists data,
    draw (fun _ _ => 0) defaultView (mkCanvas 2 2 0 0) = Some data
    /\ take 4 (drop (pixelIndex (mkCanvas 2 2 0 0) 1 1) data)
       = [0; 0; 0; 255]%Z.
Proof.
  apply (draw_inside_black (fun _ _ => 0) defaultView (mkCanvas 2 2 0 0) 1 1);
    [simpl; lia | simpl; lia | vm_compute; reflexivity].
Defined.

(** X10. Outside the psychedelic scheme the frame does not depend on when
    its pixels are coloured. *)
Theorem draw_clock_independent (clock1 clock2 : nat -> nat -> float)
    (v : ViewState) (canvas : Canvas) :
  colorScheme v <> psychedelic ->
  draw clock1 v canvas = draw clock2 v canvas.
Proof.
  intros Hs. unfold draw.
  destruct (createImageData (width canvas) (height canvas)) as [data|];
    [|reflexivity].
  f_equal. now apply columns_clock.
Qed.

Lemma draw_clock_independent_witness :
  draw (fun _ _ => 0) defaultView (mkCanvas 3 2 0 0)
  = draw (fun px py => JS.num_of_nat (px + py)) defaultView (mkCanvas 3 2 0 0).
Proof.
  apply (draw_clock_independent (fun _ _ => 0)
           (fun px py => JS.num_of_nat (px + py)) defaultView
           (mkCanvas 3 2 0 0)).
  discriminate.
Defined.

(** ** The frame once the zoom has underflowed *)

(** What an infinite or NaN factor, dividend or term leaves. *)
Lemma mul_not_Finite_l (a b : float) : ~ Finite a -> ~ Finite (a * b).
Proof.
  unfold Finite. rewrite FloatAxioms.mul_spec.
  destruct (Prim2SF a) as [sa|sa| |sa ma ea]; simpl; try tauto;
    destruct (Prim2SF b) as [sb|sb| |sb mb eb]; simpl; tauto.
Qed.

Lemma mul_not_Finite_r (a b : float) : ~ Finite b -> ~ Finite (a * b).
Proof.
  unfold Finite. rewrite FloatAxioms.mul_spec.
  destruct (Prim2SF b) as [sb|sb| |sb mb eb]; simpl; try tauto;
    destruct (Prim2SF a) as [sa|sa| |sa ma ea]; simpl; tauto.
Qed.

Lemma div_not_Finite_l (a b : float) : ~ Finite a -> ~ Finite (a / b).
Proof.
  unfold Finite. rewrite FloatAxioms.div_spec.
  destruct (Prim2SF a) as [sa|sa| |sa ma ea]; simpl; try tauto;
    destruct (Prim2SF b) as [sb|sb| |sb mb eb]; simpl; tauto.
Qed.

Lemma add_not_Finite_r (a b : float) : ~ Finite b -> ~ Finite (a + b).
Proof.
  unfold Finite. rewrite FloatAxioms.add_spec.
  destruct (Prim2SF b) as [sb|sb| |sb mb eb]; simpl; try tauto;
    destruct (Prim2SF a) as [sa|[]| |sa ma ea]; try destruct sb; simpl; tauto.
Qed.

Lemma scale_zoom_zero (z : float) : Zero z -> ~ Finite (3.5 / z).
Proof.
  unfold Zero, Finite. rewrite FloatAxioms.div_spec.
  change (Prim2SF 3.5) with (S754_finite false 7881299347898368%positive (-51)%Z).
  destruct (Prim2SF z) as [s|s| |s m e]; simpl; tauto.
Qed.

Lemma planeX_zoom_zero (v : ViewState) (canvas : Canvas) (px : float) :
  Zero (zoom v) -> ~ Finite (planeX v canvas px).
Proof.
  intros Hz. unfold planeX.
  apply add_not_Finite_r, div_not_Finite_l, mul_not_Finite_l,
    mul_not_Finite_r, scale_zoom_zero, Hz.
Qed.

(** X11. Once the zoom has underflowed to 0 the frame is uniform: the
    scale is infinite, every pixel is mapped to a point at infinity (or
    to NaN), and its slot holds the colour of the count 1. *)
Theorem draw_zoom_zero (clock : nat -> nat -> float) (v : ViewState)
    (canvas : Canvas) (px py : nat) :
  Zero (zoom v) -> (1 <= maxIterations v)%nat ->
  (px < width canvas)%nat -> (py < height canvas)%nat ->
  pixelColor (clock px py) v canvas px py
  = getColor (clock px py) (JS.num_of_nat 1)
      (JS.num_of_nat (maxIterations v)) (colorScheme v)
  /\ exists data,
       draw clock v canvas = Some data
       /\ take 4 (drop (pixelIndex canvas px py) data)
          = [JS.ToUint8Clamp
               (fst (fst (getColor (clock px py) (JS.num_of_nat 1)
                            (JS.num_of_nat (maxIterations v))
                            (colorScheme v))));
             JS.ToUint8Clamp
               (snd (fst (getColor (clock px py) (JS.num_of_nat 1)
                            (JS.num_of_nat (maxIterations v))
                            (colorScheme v))));
             JS.ToUint8Clamp
               (snd (getColor (clock px py) (JS.num_of_nat 1)
                       (JS.num_of_nat (maxIterations v)) (colorScheme v)));
             255%Z].
Proof.
  intros Hz HN Hx Hy.
  assert (Hc : pixelColor (clock px py) v canvas px py
               = getColor (clock px py) (JS.num_of_nat 1)
                   (JS.num_of_nat (maxIterations v)) (colorScheme v)).
  { unfold pixelColor. rewrite iterate_at_infinity; [reflexivity| |exact HN].
    left. now apply planeX_zoom_zero. }
  split; [exact Hc|].
  destruct (draw_painted clock v canvas px py Hx Hy) as (data & Hd & Hp).
  exists data. split; [exact Hd|].
  rewrite (painted_slot clock v canvas _ px py Hp).
  unfold pixelBytes. rewrite Hc.
  now destruct (getColor _ _ _ _) as [[r g] b].
Qed.

Lemma draw_zoom_zero_witness :
  pixelColor 0 (mkView (-0.5) 0 0 120 classic) (mkCanvas 2 2 0 0) 1 0
  = getColor 0 (JS.num_of_nat 1) (JS.num_of_nat 120) classic.
Proof.
  apply (draw_zoom_zero (fun _ _ => 0) (mkView (-0.5) 0 0 120 classic)
           (mkCanvas 2 2 0 0) 1 0);
    [exact I | simpl; lia | simpl; lia | simpl; lia].
Defined.

(** ** More on binary64 comparisons *)

Lemma SFleb_trans (a b c : spec_float) :
  SFleb a b = true -> SFleb b c = true -> SFleb a c = true.
Proof.
  unfold SFleb.
  destruct a as [sa|sa| |sa ma ea], b as [sb|sb| |sb mb eb],
    c as [sc|sc| |sc mc ec];
    try destruct sa; try destruct sb; try destruct sc;
    simpl; try easy;
    change (Pos.compare_cont Eq) with Pos.compare;
    destruct (Z.compare_spec ea eb), (Z.compare_spec eb ec),
      (Z.compare_spec ea ec);
    try easy; try lia; subst;
    destruct (Pos.compare_spec ma mb), (Pos.compare_spec mb mc),
      (Pos.compare_spec ma mc);
    simpl; try easy; try lia.
Qed.

Lemma leb_trans (a b c : float) :
  (a <=? b) = true -> (b <=? c) = true -> (a <=? c) = true.
Proof. rewrite !FloatAxioms.leb_spec. apply SFleb_trans. Qed.

Lemma not_nan_Prim2SF (x : float) :
  is_nan x = false <-> Prim2SF x <> S754_nan.
Proof.
  split.
  - intros H Hn. unfold is_nan in H. apply negb_false_iff in H.
    rewrite FloatAxioms.eqb_spec, Hn in H. discriminate H.
  - intros H. destruct (is_nan x) eqn:Hx; [|reflexivity].
    now apply is_nan_Prim2SF in Hx.
Qed.

Lemma leb_refl (x : float) : is_nan x = false -> (x <=? x) = true.
Proof.
  intros H. apply not_nan_Prim2SF in H.
  rewrite FloatAxioms.leb_spec. unfold SFleb. now rewrite SFcompare_refl.
Qed.

Lemma leb_not_nan (a b : float) : (a <=? b) = true -> is_nan b = false.
Proof.
  intros H. apply not_nan_Prim2SF. intros Hn.
  rewrite FloatAxioms.leb_spec, Hn in H. now destruct (Prim2SF a).
Qed.

(** [Math.max] of two numbers is one of them, and at least both. *)
Lemma Math_max_spec (a b : float) :
  is_nan a = false -> is_nan b = false ->
  (a <=? JS.Math_max a b) = true
  /\ (b <=? JS.Math_max a b) = true
  /\ (JS.Math_max a b = a \/ JS.Math_max a b = b).
Proof.
  intros Ha Hb. unfold JS.Math_max. rewrite Ha, Hb. cbn [orb].
  pose proof (leb_refl a Ha) as Ra. pose proof (leb_refl b Hb) as Rb.
  assert (Hc : (a <? b) = false -> (b <? a) = false ->
               (a <=? b) = true /\ (b <=? a) = true).
  { apply not_nan_Prim2SF in Ha, Hb.
    rewrite !FloatAxioms.ltb_spec, !FloatAxioms.leb_spec.
    unfold SFltb, SFleb.
    rewrite (SFcompare_antisym (Prim2SF a) (Prim2SF b)).
    destruct (Prim2SF a) as [sa|sa| |sa ma ea],
      (Prim2SF b) as [sb|sb| |sb mb eb]; try congruence;
      match goal with
      | |- context [SFcompare ?x ?y] => destruct (SFcompare x y) as [[]|] eqn:E
      end; simpl; try easy;
      simpl in E; try destruct sa; try destruct sb; discriminate E. }
  destruct (a <? b) eqn:Hab.
  - repeat split; auto.
    rewrite FloatAxioms.ltb_spec in Hab. rewrite FloatAxioms.leb_spec.
    unfold SFltb in Hab. unfold SFleb.
    now destruct (SFcompare (Prim2SF a) (Prim2SF b)) as [[]|].
  - destruct (b <? a) eqn:Hba.
    + repeat split; auto.
      rewrite FloatAxioms.ltb_spec in Hba. rewrite FloatAxioms.leb_spec.
      unfold SFltb in Hba. unfold SFleb.
      now destruct (SFcompare (Prim2SF b) (Prim2SF a)) as [[]|].
    + destruct (Hc eq_refl eq_refl) as [Lab Lba].
      destruct (get_sign a); repeat split; auto.
Qed.

(** ** The fire palette *)

(** [Math.min] of two numbers is one of them, and at most both. *)
Lemma Math_min_spec (a b : float) :
  is_nan a = false -> is_nan b = false ->
  (JS.Math_min a b <=? a) = true
  /\ (JS.Math_min a b <=? b) = true
  /\ (JS.Math_min a b = a \/ JS.Math_min a b = b).
Proof.
  intros Ha Hb. unfold JS.Math_min. rewrite Ha, Hb. cbn [orb].
  pose proof (leb_refl a Ha) as Ra. pose proof (leb_refl b Hb) as Rb.
  assert (Hc : (a <? b) = false -> (b <? a) = false ->
               (a <=? b) = true /\ (b <=? a) = true).
  { apply not_nan_Prim2SF in Ha, Hb.
    rewrite !FloatAxioms.ltb_spec, !FloatAxioms.leb_spec.
    unfold SFltb, SFleb.
    rewrite (SFcompare_antisym (Prim2SF a) (Prim2SF b)).
    destruct (Prim2SF a) as [sa|sa| |sa ma ea],
      (Prim2SF b) as [sb|sb| |sb mb eb]; try congruence;
      match goal with
      | |- context [SFcompare ?x ?y] => destruct (SFcompare x y) as [[]|] eqn:E
      end; simpl; try easy;
      simpl in E; try destruct sa; try destruct sb; discriminate E. }
  destruct (a <? b) eqn:Hab.
  - repeat split; auto.
    rewrite FloatAxioms.ltb_spec in Hab. rewrite FloatAxioms.leb_spec.
    unfold SFltb in Hab. unfold SFleb.
    now destruct (SFcompare (Prim2SF a) (Prim2SF b)) as [[]|].
  - destruct (b <? a) eqn:Hba.
    + repeat split; auto.
      rewrite FloatAxioms.ltb_spec in Hba. rewrite FloatAxioms.leb_spec.
      unfold SFltb in Hba. unfold SFleb.
      now destruct (SFcompare (Prim2SF b) (Prim2SF a)) as [[]|].
    + destruct (Hc eq_refl eq_refl) as [Lab Lba].
      destruct (get_sign a); repeat split; auto.
Qed.

Lemma binary_normalize_not_nan (m e : Z) :
  binary_normalize prec emax m e false <> S754_nan.
Proof.
  destruct m as [|p|p]; simpl; try discriminate;
    unfold binary_round; destruct (shl_align _ _ _) as [mz ez];
    intros Hn.
  - pose proof (binary_round_aux_signed false (Z.pos mz) ez loc_Exact
                  ltac:(lia)) as H.
    now rewrite Hn in H.
  - pose proof (binary_round_aux_signed true (Z.pos mz) ez loc_Exact
                  ltac:(lia)) as H.
    now rewrite Hn in H.
Qed.

(** Subtracting a finite constant from a number that is not negative
    gives a number. *)
Lemma sub_255_not_nan (u : float) :
  (0 <=? u) = true -> is_nan (u - 255) = false.
Proof.
  intros Hu. apply leb_zero_nonneg in Hu. apply not_nan_Prim2SF.
  rewrite FloatAxioms.sub_spec.
  change (Prim2SF 255)
    with (S754_finite false 8972014882652160%positive (-45)%Z).
  destruct (Prim2SF u) as [s|[]| |[] m e]; simpl in Hu |- *;
    try easy.
  apply binary_normalize_not_nan.
Qed.

(** X12. The fire palette is clamped: whenever the ratio
    [iteration / maxIter] is a number that is not negative, the red and
    green channels lie between 0 and 255 and the blue channel is 0. *)
Theorem getColor_fire_range (now iteration maxIter : float) :
  (0 <=? iteration / maxIter) = true ->
  byte_range (fst (fst (getColor now iteration maxIter fire))) = true
  /\ byte_range (snd (fst (getColor now iteration maxIter fire))) = true
  /\ snd (getColor now iteration maxIter fire) = 0.
Proof.
  intros Ht. unfold getColor.
  destruct (iteration =? maxIter); [now repeat split|].
  cbn [fst snd].
  set (u := iteration / maxIter * 510).
  assert (Hu : (0 <=? u) = true)
    by now apply (mul_const_nonneg 510 8972014882652160%positive (-44)%Z).
  assert (N255 : is_nan 255 = false) by reflexivity.
  assert (N0 : is_nan 0 = false) by reflexivity.
  assert (L0 : (0 <=? 255) = true) by reflexivity.
  pose proof (leb_not_nan _ _ Hu) as Nu.
  destruct (Math_min_spec 255 u N255 Nu) as (R1 & R2 & R3).
  pose proof (sub_255_not_nan u Hu) as Nv.
  destruct (Math_max_spec 0 (u - 255) N0 Nv) as (G1 & G2 & G3).
  pose proof (leb_not_nan _ _ G1) as Nw.
  destruct (Math_min_spec 255 _ N255 Nw) as (H1 & H2 & H3).
  unfold byte_range. repeat split.
  - apply andb_true_intro. split; [|exact R1].
    destruct R3 as [-> | ->]; assumption.
  - apply andb_true_intro. split; [|exact H1].
    destruct H3 as [-> | ->]; assumption.
Qed.

Lemma getColor_fire_range_witness :
  byte_range (fst (fst (getColor 0 100 120 fire))) = true
  /\ byte_range (snd (fst (getColor 0 100 120 fire))) = true
  /\ snd (getColor 0 100 120 fire) = 0.
Proof.
  apply (getColor_fire_range 0 100 120). reflexivity.
Defined.

(** ** More on the handlers *)

Lemma isDragging_step (canvas : Canvas) (app : App) (ev : Event) :
  isDragging (step canvas app ev) = isDragging (handle canvas app ev).
Proof. unfold step. now destruct (deps_changed _ _ _). Qed.

Lemma lastMousePos_step (canvas : Canvas) (app : App) (ev : Event) :
  lastMousePos (step canvas app ev) = lastMousePos (handle canvas app ev).
Proof. unfold step. now destruct (deps_changed _ _ _). Qed.

Lemma dragDistance_step (canvas : Canvas) (app : App) (ev : Event) :
  dragDistance (step canvas app ev) = dragDistance (handle canvas app ev).
Proof. unfold step. now destruct (deps_changed _ _ _). Qed.

Lemma run_app (canvas : Canvas) (app : App) (evs evs' : list Event) :
  run canvas app (evs ++ evs') = run canvas (run canvas app evs) evs'.
Proof. unfold run. apply fold_left_app. Qed.

(** While the button is held, moving the pointer pans: it adds to the
    distance and changes neither the zoom nor the dive mode. *)
Lemma run_moves (canvas : Canvas) (pts : list (float * float)) :
  forall app,
    isDragging app = true ->
    let app' := run canvas app (moves pts) in
    isDragging app' = true
    /\ dragDistance app'
       = dragPath (lastMousePos app) (dragDistance app) pts
    /\ zoom (view app') = zoom (view app)
    /\ isContinuousZoom app' = isContinuousZoom app.
Proof.
  induction pts as [|p pts IH]; intros app Hd; [now repeat split|].
  cbn zeta. change (moves (p :: pts))
    with (MouseMove (fst p) (snd p) :: moves pts).
  rewrite run_cons.
  set (app1 := step canvas app (MouseMove (fst p) (snd p))).
  assert (H1 : isDragging app1 = true
               /\ lastMousePos app1 = p
               /\ dragDistance app1
                  = dragDistance app
                    + PrimFloat.sqrt
                        ((fst p - fst (lastMousePos app))
                         * (fst p - fst (lastMousePos app))
                         + (snd p - snd (lastMousePos app))
                           * (snd p - snd (lastMousePos app)))
               /\ zoom (view app1) = zoom (view app)
               /\ isContinuousZoom app1 = isContinuousZoom app).
  { unfold app1.
    rewrite isDragging_step, lastMousePos_step, dragDistance_step,
      view_step, isContinuousZoom_step.
    cbn [handle]. rewrite Hd. destruct p as [x y]. now repeat split. }
  destruct H1 as (D1 & L1 & P1 & Z1 & C1).
  destruct (IH app1 D1) as (D2 & P2 & Z2 & C2).
  rewrite D2, P2, Z2, C2, L1, P1, Z1, C1. now repeat split.
Qed.

Lemma step_press (canvas : Canvas) (app : App) (x0 y0 : float) :
  step canvas app (MouseDown 0 x0 y0)
  = mkApp (view app) (isContinuousZoom app) (zoomTarget app)
      (dive_view app) true (x0, y0) 0.
Proof.
  unfold step, deps_changed. cbn [handle Nat.eqb view isContinuousZoom].
  now rewrite Bool.eqb_reflx, sameValue_refl.
Qed.

(** X13. What separates a click from a drag is the distance accumulated
    since the press: on release (or when the pointer leaves the canvas)
    a gesture of less than 5 pixels is a click, which doubles the zoom
    or, with the modifier key, toggles the dive mode; any other gesture
    has only panned.  The distance is counted from the press, whatever
    was dragged before. *)
Theorem gesture_click_or_drag (canvas : Canvas) (app : App)
    (x0 y0 : float) (pts : list (float * float)) (modifier : bool)
    (x y : float) :
  let d := dragPath (x0, y0) 0 pts in
  let app' :=
    run canvas app
      (MouseDown 0 x0 y0 :: moves pts ++ [MouseUp modifier x y]) in
  isDragging app' = false
  /\ zoom (view app')
     = (if (d <? 5) && negb modifier then zoom (view app) * 2
        else zoom (view app))
  /\ isContinuousZoom app'
     = (if (d <? 5) && modifier then negb (isContinuousZoom app)
        else isContinuousZoom app).
Proof.
  intros d app'. unfold app'. rewrite run_cons, step_press, run_app.
  set (app0 := mkApp _ _ _ _ _ _ _).
  destruct (run_moves canvas pts app0 eq_refl) as (D & P & Z & C).
  set (app1 := run canvas app0 (moves pts)) in *.
  change (dragPath (lastMousePos app0) (dragDistance app0) pts) with d in P.
  change (zoom (view app0)) with (zoom (view app)) in Z.
  change (isContinuousZoom app0) with (isContinuousZoom app) in C.
  unfold run, fold_left.
  rewrite isDragging_step, view_step, isContinuousZoom_step.
  cbn [handle]. rewrite D, P. unfold handleCanvasClick.
  destruct (d <? 5), modifier; cbn; rewrite ?Z, ?C; now repeat split.
Qed.

Lemma handle_settings (canvas : Canvas) (app : App) (ev : Event) :
  writes_settings ev = false ->
  maxIterations (view (handle canvas app ev)) = maxIterations (view app)
  /\ colorScheme (view (handle canvas app ev)) = colorScheme (view app).
Proof.
  intros H. unfold handle, handleCanvasClick.
  destruct ev; try discriminate H;
    repeat match goal with
      | |- context [if ?b then _ else _] => destruct b
      | |- context [match nth_error ?l ?i with _ => _ end] =>
          destruct (nth_error l i)
      end;
    now split.
Qed.

(** X14. Navigation never touches the rendering settings: as long as
    neither the iteration slider, nor a palette button, nor the reset
    button is used, the iteration cap and the colour scheme stay what
    they were. *)
Theorem navigation_keeps_settings (canvas : Canvas) (evs : list Event) :
  forall app,
    forallb (fun ev => negb (writes_settings ev)) evs = true ->
    maxIterations (view (run canvas app evs)) = maxIterations (view app)
    /\ colorScheme (view (run canvas app evs)) = colorScheme (view app).
Proof.
  induction evs as [|ev evs IH]; intros app H; [now split|].
  simpl in H. apply andb_prop in H. destruct H as [Hev Hevs].
  apply negb_true_iff in Hev.
  rewrite run_cons. destruct (IH (step canvas app ev) Hevs) as [-> ->].
  rewrite view_step. now apply handle_settings.
Qed.

Lemma navigation_keeps_settings_witness :
  maxIterations
    (view (run canvas800x600 initialApp
             [ZoomInButton; Landmark 2; DiveButton; Tick;
              MouseDown 0 10 10; MouseMove 50 60; MouseUp false 50 60]))
  = maxIterations (view initialApp)
  /\ colorScheme
       (view (run canvas800x600 initialApp
                [ZoomInButton; Landmark 2; DiveButton; Tick;
                 MouseDown 0 10 10; MouseMove 50 60; MouseUp false 50 60]))
     = colorScheme (view initialApp).
Proof.
  apply (navigation_keeps_settings canvas800x600
           [ZoomInButton; Landmark 2; DiveButton; Tick;
            MouseDown 0 10 10; MouseMove 50 60; MouseUp false 50 60]
           initialApp).
  reflexivity.
Defined.

Lemma handle_cap_range (canvas : Canvas) (app : App) (ev : Event) :
  (50 <= maxIterations (view app) <= 1000)%nat
  /\ (maxIterations (view app) = 120%nat
      \/ (maxIterations (view app) mod 50 = 0)%nat) ->
  (50 <= maxIterations (view (handle canvas app ev)) <= 1000)%nat
  /\ (maxIterations (view (handle canvas app ev)) = 120%nat
      \/ (maxIterations (view (handle canvas app ev)) mod 50 = 0)%nat).
Proof.
  intros H. destruct (writes_settings ev) eqn:Hev.
  - destruct ev; try discriminate Hev;
      cbn [handle with_view view defaultView setIterations setScheme
           maxIterations]; try exact H.
    + split; [lia | now left].
    + unfold range_value. split; [lia|]. right.
      replace (50 + 50 * Nat.min position 19)%nat
        with ((Nat.min position 19 + 1) * 50)%nat by lia.
      apply Nat.Div0.mod_mul.
  - now rewrite (proj1 (handle_settings canvas app ev Hev)).
Qed.

(** X15. Whatever the user does, the iteration cap stays between 50 and
    1000: it is 120 (the initial and the reset value) or a multiple of
    50 set with the slider. *)
Theorem cap_range (canvas : Canvas) (evs : list Event) :
  let n := maxIterations (view (run canvas initialApp evs)) in
  (50 <= n <= 1000)%nat /\ (n = 120%nat \/ (n mod 50 = 0)%nat).
Proof.
  cbn zeta.
  assert (H : forall app,
             (50 <= maxIterations (view app) <= 1000)%nat
             /\ (maxIterations (view app) = 120%nat
                 \/ (maxIterations (view app) mod 50 = 0)%nat) ->
             (50 <= maxIterations (view (run canvas app evs)) <= 1000)%nat
             /\ (maxIterations (view (run canvas app evs)) = 120%nat
                 \/ (maxIterations (view (run canvas app evs)) mod 50
                     = 0)%nat)).
  { induction evs as [|ev evs IH]; intros app Happ; [exact Happ|].
    rewrite run_cons. apply IH. rewrite view_step.
    now apply handle_cap_range. }
  apply H. cbn. split; [lia | now left].
Qed.

(** X16. The daily challenge is always defined: the weekday index is
    reduced modulo the number of challenges, so the lookup never misses
    and the button moves the view to a challenge of the table. *)
Theorem daily_challenge_defined (canvas : Canvas) (app : App) (today : nat) :
  exists loc,
    nth_error DAILY_CHALLENGES (today mod length DAILY_CHALLENGES) = Some loc
    /\ view (step canvas app (ScanCoordinates today))
       = jumpTo loc (view app).
Proof.
  assert (Hlt : (today mod length DAILY_CHALLENGES
                 < length DAILY_CHALLENGES)%nat)
    by (apply Nat.mod_upper_bound; discriminate).
  destruct (nth_error DAILY_CHALLENGES (today mod length DAILY_CHALLENGES))
    as [loc|] eqn:Hloc.
  - exists loc. split; [reflexivity|].
    rewrite view_step. cbn [handle]. now rewrite Hloc.
  - apply nth_error_None in Hloc. lia.
Qed.

(** X17. A dive never stops by itself and zooms at a fixed rate: [n]
    ticks multiply the zoom [n] times by 1.05, wherever the pointer is
    and whatever view the callback has captured, and leave the dive mode
    on. *)
Theorem dive_zoom_rate (canvas : Canvas) (n : nat) :
  forall app,
    isContinuousZoom app = true ->
    zoom (view (run canvas app (repeat Tick n)))
    = dive_zoom n (zoom (view app))
    /\ isContinuousZoom (run canvas app (repeat Tick n)) = true.
Proof.
  induction n as [|n IH]; intros app Hc; [now split|].
  cbn [repeat]. rewrite run_cons.
  assert (H1 : isContinuousZoom (step canvas app Tick) = true).
  { rewrite isContinuousZoom_step. cbn [handle]. now rewrite Hc. }
  destruct (IH (step canvas app Tick) H1) as [-> ->].
  split; [|reflexivity].
  rewrite view_step. cbn [handle]. rewrite Hc.
  unfold dive_zoom. now rewrite Nat.iter_succ_r.
Qed.

Lemma dive_zoom_rate_witness :
  zoom (view (run canvas800x600 (toggleDive initialApp) (repeat Tick 3)))
  = dive_zoom 3 (zoom (view (toggleDive initialApp)))
  /\ isContinuousZoom
       (run canvas800x600 (toggleDive initialApp) (repeat Tick 3)) = true.
Proof.
  apply (dive_zoom_rate canvas800x600 3 (toggleDive initialApp)).
  reflexivity.
Defined.

(** ** Doubling and halving *)

Lemma iter_pos_nat {A} (f : A -> A) (p : positive) (x : A) :
  SpecFloat.iter_pos f p x = Nat.iter (Pos.to_nat p) f x.
Proof.
  revert x. induction p as [p IH|p IH|]; intros x; simpl SpecFloat.iter_pos.
  - rewrite !IH, Pos2Nat.inj_xI.
    replace (S (2 * Pos.to_nat p)) with (Pos.to_nat p + Pos.to_nat p + 1)%nat
      by lia.
    now rewrite !Nat.iter_add.
  - rewrite !IH, Pos2Nat.inj_xO.
    replace (2 * Pos.to_nat p)%nat with (Pos.to_nat p + Pos.to_nat p)%nat
      by lia.
    now rewrite Nat.iter_add.
  - reflexivity.
Qed.

Lemma shr_1_double (N : Z) :
  (0 < N)%Z ->
  shr_1 (Build_shr_record (2 * N) false false)
  = Build_shr_record N false false.
Proof. destruct N as [|n|n]; try lia. reflexivity. Qed.

(** Shifting out zero bits loses nothing. *)
Lemma shr_1_exact (k : nat) (M : Z) :
  (0 < M)%Z ->
  forall j : nat,
    Nat.iter k shr_1
      (Build_shr_record (M * 2 ^ Z.of_nat (k + j)) false false)
    = Build_shr_record (M * 2 ^ Z.of_nat j) false false.
Proof.
  intros HM. induction k as [|k IH]; intros j; [reflexivity|].
  rewrite Nat.iter_succ.
  replace (Z.of_nat (S k + j)) with (Z.of_nat (k + S j)) by lia.
  rewrite IH.
  replace (M * 2 ^ Z.of_nat (S j))%Z with (2 * (M * 2 ^ Z.of_nat j))%Z
    by (rewrite Nat2Z.inj_succ, Z.pow_succ_r; lia).
  apply shr_1_double.
  pose proof (Z.pow_pos_nonneg 2 (Z.of_nat j)). nia.
Qed.

(** A value [m * 2^e] in canonical form, given with [n] more low bits
    (all zero), rounds to itself. *)
Lemma binary_round_aux_exact (s : bool) (m : positive) (e : Z) (n : nat) :
  fexp prec emax (Zdigits2 (Z.pos m) + e) = e ->
  binary_round_aux prec emax s (Z.pos m * 2 ^ Z.of_nat n) (e - Z.of_nat n)
    loc_Exact
  = if (e <=? emax - prec)%Z then S754_finite s m e else S754_infinity s.
Proof.
  intros Hc.
  assert (Hpow : (0 < 2 ^ Z.of_nat n)%Z) by (apply Z.pow_pos_nonneg; lia).
  assert (HM : (0 < Z.pos m * 2 ^ Z.of_nat n)%Z) by nia.
  assert (Hd : Zdigits2 (Z.pos m * 2 ^ Z.of_nat n)
               = (Zdigits2 (Z.pos m) + Z.of_nat n)%Z).
  { rewrite !Zdigits2_log2 by lia.
    rewrite <- Z.shiftl_mul_pow2, Z.log2_shiftl by lia. lia. }
  assert (H1 : shr_fexp prec emax (Z.pos m * 2 ^ Z.of_nat n)
                 (e - Z.of_nat n) loc_Exact
               = (Build_shr_record (Z.pos m) false false, e)).
  { unfold shr_fexp. rewrite Hd.
    replace (Zdigits2 (Z.pos m) + Z.of_nat n + (e - Z.of_nat n))%Z
      with (Zdigits2 (Z.pos m) + e)%Z by lia.
    rewrite Hc.
    replace (e - (e - Z.of_nat n))%Z with (Z.of_nat n) by lia.
    cbn [shr_record_of_loc]. destruct n as [|n].
    - change (Z.of_nat 0) with 0%Z.
      rewrite Z.pow_0_r, Z.mul_1_r, Z.sub_0_r. reflexivity.
    - pose proof (shr_1_exact (S n) (Z.pos m) ltac:(lia) 0) as Hx.
      rewrite Nat.add_0_r in Hx.
      change (Z.of_nat 0) with 0%Z in Hx.
      rewrite Z.pow_0_r, Z.mul_1_r in Hx.
      change (Z.of_nat (S n)) with (Z.pos (Pos.of_succ_nat n)) in Hx |- *.
      unfold shr. rewrite iter_pos_nat, SuccNat2Pos.id_succ, Hx.
      f_equal. lia. }
  assert (H2 : shr_fexp prec emax (Z.pos m) e loc_Exact
               = (Build_shr_record (Z.pos m) false false, e)).
  { unfold shr_fexp. rewrite Hc, Z.sub_diag. reflexivity. }
  unfold binary_round_aux. rewrite H1. cbn [shr_m loc_of_shr_record
                                             round_nearest_even].
  rewrite H2. reflexivity.
Qed.

Lemma valid_canonical (x : float) (s : bool) (m : positive) (e : Z) :
  Prim2SF x = S754_finite s m e ->
  fexp prec emax (Zdigits2 (Z.pos m) + e) = e /\ (e <= emax - prec)%Z.
Proof.
  intros Hx. pose proof (Prim2SF_valid x) as Hv. rewrite Hx in Hv.
  simpl in Hv. unfold bounded, canonical_mantissa in Hv.
  apply andb_prop in Hv. destruct Hv as [Hc He].
  apply Z.eqb_eq in Hc. apply Z.leb_le in He. now split.
Qed.

Lemma div_eucl_pow2 (M : Z) :
  Z.div_eucl (M * 4503599627370496) 4503599627370496 = (M, 0%Z).
Proof.
  pose proof (Z.div_mul M 4503599627370496 ltac:(lia)) as Hq.
  pose proof (Z.mod_mul M 4503599627370496 ltac:(lia)) as Hr.
  unfold Z.div in Hq. unfold Z.modulo in Hr.
  destruct (Z.div_eucl (M * 4503599627370496) 4503599627370496) as [q r].
  now subst.
Qed.

(** Doubling is exact, short of overflow. *)
Lemma mul_2_exact (x : float) (s : bool) (m : positive) (e : Z) :
  Prim2SF x = S754_finite s m e ->
  Finite (x * 2) ->
  exists (m2 : positive) (n : nat),
    Prim2SF (x * 2) = S754_finite s m2 (e + 1 - Z.of_nat n)
    /\ Z.pos m2 = (Z.pos m * 2 ^ Z.of_nat n)%Z
    /\ (n = 0%nat \/ (n = 1%nat /\ e = emin64)).
Proof.
  intros Hx Hfin. unfold Finite in Hfin.
  destruct (valid_canonical x s m e Hx) as [Hc He].
  destruct (valid_digits x s m e Hx) as [Hmin Hd].
  rewrite FloatAxioms.mul_spec, Hx in Hfin |- *.
  change (Prim2SF 2) with (S754_finite false 4503599627370496%positive (-51)%Z)
    in Hfin |- *.
  unfold SF64mul, SFmul in Hfin |- *. rewrite xorb_false_r in Hfin |- *.
  rewrite Zdigits2_log2 in Hc by lia.
  unfold fexp in Hc. change (SpecFloat.emin prec emax) with emin64 in Hc.
  change prec with 53%Z in Hc.
  pose proof (Z.log2_nonneg (Z.pos m)) as HL.
  destruct (Z.eq_dec (Z.log2 (Z.pos m) + 1)%Z 53%Z) as [E53|N53].
  - exists m, 0%nat.
    pose proof (binary_round_aux_exact s m (e + 1)%Z 52) as Hr.
    change (Z.of_nat 52) with 52%Z in Hr.
    change (2 ^ 52)%Z with 4503599627370496%Z in Hr.
    replace (e + 1 - 52)%Z with (e + -51)%Z in Hr by lia.
    rewrite Pos2Z.inj_mul in Hfin |- *.
    assert (Hcan : fexp prec emax (Zdigits2 (Z.pos m) + (e + 1)) = (e + 1)%Z).
    { rewrite Zdigits2_log2 by lia. unfold fexp.
      change (SpecFloat.emin prec emax) with emin64.
      change prec with 53%Z. lia. }
    rewrite (Hr Hcan) in Hfin |- *.
    destruct (e + 1 <=? emax - prec)%Z; [|destruct Hfin].
    change (Z.of_nat 0) with 0%Z. rewrite Z.sub_0_r, Z.pow_0_r, Z.mul_1_r.
    auto.
  - assert (Ee : e = emin64) by lia.
    exists (m~0)%positive, 1%nat.
    pose proof (binary_round_aux_exact s (m~0)%positive e 51) as Hr.
    change (Z.of_nat 51) with 51%Z in Hr.
    replace (Z.pos m~0 * 2 ^ 51)%Z with (Z.pos m * 4503599627370496)%Z in Hr
      by (change (2 ^ 51)%Z with 2251799813685248%Z; lia).
    replace (e - 51)%Z with (e + -51)%Z in Hr by lia.
    rewrite Pos2Z.inj_mul.
    rewrite Hr.
    2:{ rewrite Zdigits2_log2 by lia.
        replace (Z.pos m~0) with (2 * Z.pos m)%Z by lia.
        rewrite Z.log2_double by lia.
        unfold fexp. change (SpecFloat.emin prec emax) with emin64.
        change prec with 53%Z. lia. }
    rewrite (proj2 (Z.leb_le _ _) He).
    change (Z.of_nat 1) with 1%Z. rewrite Z.pow_1_r.
    split; [f_equal; lia|]. split; [lia|]. right. now split.
Qed.

(** Halving the double gives the number back. *)
Lemma mul_div_2 (x : float) : Finite (x * 2) -> x * 2 / 2 = x.
Proof.
  intros Hfin. apply Prim2SF_inj.
  destruct (Prim2SF x) as [s|s| |s m e] eqn:Hx.
  - rewrite FloatAxioms.div_spec, FloatAxioms.mul_spec, Hx. now destruct s.
  - unfold Finite in Hfin. rewrite FloatAxioms.mul_spec, Hx in Hfin.
    destruct Hfin.
  - unfold Finite in Hfin. rewrite FloatAxioms.mul_spec, Hx in Hfin.
    destruct Hfin.
  - destruct (valid_canonical x s m e Hx) as [Hc He].
    destruct (valid_digits x s m e Hx) as [Hmin Hd].
    destruct (mul_2_exact x s m e Hx Hfin) as (m2 & n & H2 & Hm2 & Hn).
    rewrite FloatAxioms.div_spec, H2.
    change (Prim2SF 2)
      with (S754_finite false 4503599627370496%positive (-51)%Z).
    unfold SF64div, SFdiv, SFdiv_core_binary. rewrite xorb_false_r.
    change (Zdigits2 4503599627370496) with 53%Z.
    rewrite (Zdigits2_log2 (Z.pos m2)) by lia.
    assert (HL2 : Z.log2 (Z.pos m2) = (Z.log2 (Z.pos m) + Z.of_nat n)%Z).
    { rewrite Hm2, <- Z.shiftl_mul_pow2, Z.log2_shiftl by lia. reflexivity. }
    rewrite HL2.
    rewrite Zdigits2_log2 in Hc by lia.
    unfold fexp in Hc |- *.
    change (SpecFloat.emin prec emax) with emin64 in Hc |- *.
    change prec with 53%Z in Hc |- *.
    pose proof (Z.log2_nonneg (Z.pos m)) as HL.
    set (L := Z.log2 (Z.pos m)) in *.
    set (e' := Z.min _ _).
    assert (Hk : exists k : nat,
               (k <= 1)%nat /\ e' = (e - Z.of_nat k)%Z
               /\ (e + 1 - Z.of_nat n - -51 - e'
                   = 52 + Z.of_nat k - Z.of_nat n)%Z
               /\ (n <= k + 52)%nat).
    { subst e'. clearbody L. clear H2 Hx Hfin.
      destruct (Z.eq_dec e emin64) as [Ee|Ne].
      - exists 0%nat. destruct Hn as [->|[-> _]];
          change emin64 with (-1074)%Z in *; cbn [Z.of_nat] in *; lia.
      - destruct Hn as [->|[-> Ee]]; [|contradiction].
        exists 1%nat. change emin64 with (-1074)%Z in *.
        cbn [Z.of_nat] in *. lia. }
    destruct Hk as (k & Hk1 & He' & Hs & Hnk). rewrite Hs, He'.
    assert (Hm' : match (52 + Z.of_nat k - Z.of_nat n)%Z with
                  | 0%Z => Z.pos m2
                  | Z.pos _ =>
                      Z.shiftl (Z.pos m2) (52 + Z.of_nat k - Z.of_nat n)
                  | Z.neg _ => 0%Z
                  end
                  = (Z.pos m * 2 ^ Z.of_nat k * 4503599627370496)%Z).
    { assert (Hsh : Z.shiftl (Z.pos m2) (52 + Z.of_nat k - Z.of_nat n)
                    = (Z.pos m * 2 ^ Z.of_nat k * 4503599627370496)%Z).
      { rewrite Z.shiftl_mul_pow2, Hm2 by lia.
        change 4503599627370496%Z with (2 ^ 52)%Z.
        rewrite <- !Z.mul_assoc, <- !Z.pow_add_r by lia.
        do 2 f_equal. lia. }
      destruct (52 + Z.of_nat k - Z.of_nat n)%Z eqn:Es; try lia; exact Hsh. }
    rewrite Hm', div_eucl_pow2.
    change (new_location 4503599627370496 0) with loc_Exact.
    rewrite binary_round_aux_exact.
    + now rewrite (proj2 (Z.leb_le _ _) He).
    + rewrite Zdigits2_log2 by lia. unfold fexp.
      change (SpecFloat.emin prec emax) with emin64.
      change prec with 53%Z. exact Hc.
Qed.

(** X18. Zooming in and then out restores the view exactly, unless the
    doubled zoom overflows (or the zoom is not a number). *)
Theorem zoom_in_then_out (canvas : Canvas) (app : App) :
  is_finite (zoom (view app) * 2) = true ->
  view (run canvas app [ZoomInButton; ZoomOutButton]) = view app.
Proof.
  intros Hfin. apply is_finite_Finite in Hfin.
  rewrite !run_cons. unfold run, fold_left. rewrite !view_step.
  cbn [handle with_view view]. rewrite view_step. cbn [handle with_view view].
  unfold zoomOut, zoomIn. cbn [centerX centerY zoom maxIterations colorScheme].
  rewrite (mul_div_2 _ Hfin). now destruct (view app).
Qed.

Lemma zoom_in_then_out_witness :
  view (run canvas800x600 initialApp [ZoomInButton; ZoomOutButton])
  = view initialApp.
Proof.
  apply (zoom_in_then_out canvas800x600 initialApp). reflexivity.
Defined.

(** ** The statistics and the achievements *)

Section Achievements.

Import Ascii String.

Lemma includes_In (l : list string) (x : string) :
  Stats.includes l x = true <-> In x l.
Proof.
  unfold Stats.includes. rewrite existsb_exists. split.
  - intros (y & Hy & Hxy). apply String.eqb_eq in Hxy. now subst.
  - intros Hx. exists x. split; [exact Hx | apply String.eqb_refl].
Qed.

(** The updates of one run of the effect, in one piece. *)
Lemma fold_append (P : Stats.Achievement -> bool)
    (l : list Stats.Achievement) :
  forall acc,
    fold_left (fun prev a => if P a then prev ++ [Stats.id a] else prev) l acc
    = acc ++ map Stats.id (List.filter P l).
Proof.
  induction l as [|a l IH]; intros acc; simpl.
  - now rewrite app_nil_r.
  - rewrite IH. destruct (P a); [|reflexivity].
    simpl. now rewrite <- app_assoc.
Qed.

Lemma achievementEngine_filter (s : Stats.GameStats) (u : list string) :
  Stats.achievementEngine s u
  = u ++ map Stats.id
           (List.filter
              (fun a => negb (Stats.includes u (Stats.id a))
                        && Stats.condition a s)
              Stats.ACHIEVEMENTS).
Proof. unfold Stats.achievementEngine. apply fold_append. Qed.

Lemma achievementEngine_In (s : Stats.GameStats) (u : list string)
    (x : string) :
  In x (Stats.achievementEngine s u)
  <-> In x u
      \/ exists a, In a Stats.ACHIEVEMENTS /\ Stats.id a = x
                   /\ Stats.condition a s = true.
Proof.
  rewrite achievementEngine_filter, in_app_iff, in_map_iff. split.
  - intros [H|(a & Ha & Hin)]; [now left|]. right.
    apply filter_In in Hin. destruct Hin as [Hin HP].
    apply andb_prop in HP. exists a. tauto.
  - intros [H|(a & Hin & Ha & Hc)]; [now left|].
    destruct (Stats.includes u x) eqn:Hx.
    + left. now apply includes_In.
    + right. exists a. split; [exact Ha|]. apply filter_In.
      split; [exact Hin|]. now rewrite Ha, Hx, Hc.
Qed.

Lemma filter_none {A} (P : A -> bool) (l : list A) :
  (forall a, In a l -> P a = false) -> List.filter P l = [].
Proof.
  induction l as [|a l IH]; intros H; simpl; [reflexivity|].
  rewrite (H a) by now left. apply IH. intros b Hb. apply H. now right.
Qed.

Lemma achievementEngine_idempotent (s : Stats.GameStats) (u : list string) :
  Stats.achievementEngine s (Stats.achievementEngine s u)
  = Stats.achievementEngine s u.
Proof.
  rewrite (achievementEngine_filter s (Stats.achievementEngine s u)).
  rewrite filter_none; [apply app_nil_r|].
  intros a Ha. destruct (Stats.condition a s) eqn:Hc;
    [|apply andb_false_r].
  rewrite andb_true_r. apply negb_false_iff, includes_In.
  apply achievementEngine_In. right. now exists a.
Qed.

Lemma NoDup_map_filter {A B} (f : A -> B) (P : A -> bool) (l : list A) :
  List.NoDup (map f l) -> List.NoDup (map f (List.filter P l)).
Proof.
  induction l as [|a l IH]; simpl; intros H; [exact H|].
  apply List.NoDup_cons_iff in H. destruct H as [Hn Hd].
  destruct (P a); [|now apply IH].
  simpl. apply List.NoDup_cons_iff. split; [|now apply IH].
  intros Hin. apply Hn. apply in_map_iff in Hin.
  destruct Hin as (b & Hb & Hin). apply filter_In in Hin.
  apply in_map_iff. exists b. tauto.
Qed.

Lemma achievementEngine_NoDup (s : Stats.GameStats) (u : list string) :
  List.NoDup u -> List.NoDup (Stats.achievementEngine s u).
Proof.
  intros Hu. rewrite achievementEngine_filter.
  apply List.NoDup_app; [exact Hu | |].
  - apply NoDup_map_filter. vm_compute.
    repeat (apply List.NoDup_cons;
            [simpl; intuition discriminate|]).
    apply List.NoDup_nil.
  - intros x Hx Hin. apply in_map_iff in Hin.
    destruct Hin as (a & Ha & Hin). apply filter_In in Hin.
    destruct Hin as [_ HP]. apply andb_prop in HP. destruct HP as [HP _].
    apply negb_true_iff in HP. rewrite Ha in HP.
    apply includes_In in Hx. congruence.
Qed.

Lemma play_cons (g : Stats.Game) (u : Stats.Update) (us : list Stats.Update) :
  Stats.play g (u :: us) = Stats.play (Stats.update g u) us.
Proof. reflexivity. Qed.

Lemma setStats_patternsFound (u : Stats.Update) (s : Stats.GameStats) :
  Stats.patternsFound (Stats.setStats u s) = Stats.patternsFound s.
Proof. now destruct u. Qed.

(** Which achievement an identifier names. *)
Lemma achievement_by_id (a : Stats.Achievement) (s : Stats.GameStats) :
  In a Stats.ACHIEVEMENTS ->
  (Stats.id a = "first_dive"%string -> Stats.condition a s = (10 <? Stats.zoom s))
  /\ (Stats.id a = "depth_seeker"%string ->
      Stats.condition a s = (1000 <=? Stats.maxZoom s))
  /\ (Stats.id a = "abyssal_explorer"%string ->
      Stats.condition a s = (1000000 <=? Stats.maxZoom s))
  /\ (Stats.id a = "pattern_hunter"%string ->
      Stats.condition a s = (5 <=? Stats.patternsFound s)%nat)
  /\ (Stats.id a = "stay_awhile"%string ->
      Stats.condition a s = (600 <=? Stats.timeInSeconds s)%nat)
  /\ (Stats.id a = "high_score"%string ->
      Stats.condition a s = (1000 <=? Stats.points s)%nat).
Proof.
  intros Ha. simpl in Ha.
  repeat (destruct Ha as [<- | Ha];
          [repeat split; intros H; first [reflexivity | discriminate H]|]).
  destruct Ha.
Qed.

Lemma achievement_ids (a : Stats.Achievement) :
  In a Stats.ACHIEVEMENTS ->
  In (Stats.id a)
    ["first_dive"%string; "depth_seeker"%string; "abyssal_explorer"%string; "pattern_hunter"%string;
     "stay_awhile"%string; "high_score"%string].
Proof.
  intros Ha. change (In (Stats.id a) (map Stats.id Stats.ACHIEVEMENTS)).
  now apply in_map.
Qed.

Lemma engine_pattern_hunter (s : Stats.GameStats) (u : list string) :
  In "pattern_hunter"%string (Stats.achievementEngine s u)
  <-> In "pattern_hunter"%string u \/ (5 <= Stats.patternsFound s)%nat.
Proof.
  rewrite achievementEngine_In. split; intros [H|H]; try now left.
  - right. destruct H as (a & Hin & Ha & Hc).
    rewrite (proj1 (proj2 (proj2 (proj2 (achievement_by_id a s Hin)))) Ha)
      in Hc.
    now apply Nat.leb_le.
  - right. exists (Stats.mkAchievement "pattern_hunter"%string
                     (fun s => (5 <=? Stats.patternsFound s)%nat)).
    split; [simpl; tauto|]. split; [reflexivity|]. now apply Nat.leb_le.
Qed.

Lemma engine_stay_awhile (s : Stats.GameStats) (u : list string) :
  In "stay_awhile"%string (Stats.achievementEngine s u)
  <-> In "stay_awhile"%string u \/ (600 <= Stats.timeInSeconds s)%nat.
Proof.
  rewrite achievementEngine_In. split; intros [H|H]; try now left.
  - right. destruct H as (a & Hin & Ha & Hc).
    rewrite (proj1 (proj2 (proj2 (proj2 (proj2
               (achievement_by_id a s Hin))))) Ha) in Hc.
    now apply Nat.leb_le.
  - right. exists (Stats.mkAchievement "stay_awhile"%string
                     (fun s => (600 <=? Stats.timeInSeconds s)%nat)).
    split; [simpl; tauto|]. split; [reflexivity|]. now apply Nat.leb_le.
Qed.

Lemma engine_high_score (s : Stats.GameStats) (u : list string) :
  In "high_score"%string (Stats.achievementEngine s u)
  <-> In "high_score"%string u \/ (1000 <= Stats.points s)%nat.
Proof.
  rewrite achievementEngine_In. split; intros [H|H]; try now left.
  - right. destruct H as (a & Hin & Ha & Hc).
    rewrite (proj2 (proj2 (proj2 (proj2 (proj2
               (achievement_by_id a s Hin))))) Ha) in Hc.
    now apply Nat.leb_le.
  - right. exists (Stats.mkAchievement "high_score"%string
                     (fun s => (1000 <=? Stats.points s)%nat)).
    split; [simpl; tauto|]. split; [reflexivity|]. now apply Nat.leb_le.
Qed.

Lemma engine_depth (s : Stats.GameStats) (u : list string) :
  (In "depth_seeker"%string (Stats.achievementEngine s u)
   <-> In "depth_seeker"%string u \/ (1000 <=? Stats.maxZoom s) = true)
  /\ (In "abyssal_explorer"%string (Stats.achievementEngine s u)
      <-> In "abyssal_explorer"%string u \/ (1000000 <=? Stats.maxZoom s) = true)
  /\ (In "first_dive"%string (Stats.achievementEngine s u)
      <-> In "first_dive"%string u \/ (10 <? Stats.zoom s) = true).
Proof.
  rewrite !achievementEngine_In. repeat split; intros [H|H]; try now left.
  - right. destruct H as (a & Hin & Ha & Hc).
    now rewrite (proj1 (proj2 (achievement_by_id a s Hin)) Ha) in Hc.
  - right. exists (Stats.mkAchievement "depth_seeker"%string
                     (fun s => 1000 <=? Stats.maxZoom s)).
    split; [simpl; tauto|]. now split.
  - right. destruct H as (a & Hin & Ha & Hc).
    now rewrite (proj1 (proj2 (proj2 (achievement_by_id a s Hin))) Ha) in Hc.
  - right. exists (Stats.mkAchievement "abyssal_explorer"%string
                     (fun s => 1000000 <=? Stats.maxZoom s)).
    split; [simpl; tauto|]. now split.
  - right. destruct H as (a & Hin & Ha & Hc).
    now rewrite (proj1 (achievement_by_id a s Hin) Ha) in Hc.
  - right. exists (Stats.mkAchievement "first_dive"%string
                     (fun s => 10 <? Stats.zoom s)).
    split; [simpl; tauto|]. now split.
Qed.

(** What every sequence of updates keeps. *)
Lemma play_invariant (us : list Stats.Update) :
  forall g,
    List.NoDup (Stats.unlockedAchievements g) ->
    incl (Stats.unlockedAchievements g)
      ["first_dive"%string; "depth_seeker"%string; "abyssal_explorer"%string; "stay_awhile"%string;
       "high_score"%string] ->
    Stats.patternsFound (Stats.stats g) = 0%nat ->
    List.NoDup (Stats.unlockedAchievements (Stats.play g us))
    /\ incl (Stats.unlockedAchievements (Stats.play g us))
         ["first_dive"%string; "depth_seeker"%string; "abyssal_explorer"%string; "stay_awhile"%string;
          "high_score"%string]
    /\ Stats.patternsFound (Stats.stats (Stats.play g us)) = 0%nat.
Proof.
  induction us as [|u us IH]; intros g Hd Hi Hp; [now repeat split|].
  rewrite play_cons. apply IH; cbn [Stats.update Stats.unlockedAchievements
                                    Stats.stats].
  - now apply achievementEngine_NoDup.
  - intros x Hx. apply achievementEngine_In in Hx.
    destruct Hx as [Hx|(a & Hin & Ha & Hc)]; [now apply Hi|].
    pose proof (achievement_ids a Hin) as Hid. rewrite Ha in Hid.
    simpl in Hid. simpl.
    destruct Hid as [H|[H|[H|[H|[H|[H|[]]]]]]]; try tauto.
    exfalso. subst x.
    rewrite (proj1 (proj2 (proj2 (proj2 (achievement_by_id a _ Hin))))
               (eq_sym H)) in Hc.
    rewrite setStats_patternsFound, Hp in Hc. discriminate Hc.
  - now rewrite setStats_patternsFound.
Qed.

Lemma play_counters (us : list Stats.Update) :
  forall g,
    (In "stay_awhile"%string (Stats.unlockedAchievements g)
     <-> (600 <= Stats.timeInSeconds (Stats.stats g))%nat) ->
    (In "high_score"%string (Stats.unlockedAchievements g)
     <-> (1000 <= Stats.points (Stats.stats g))%nat) ->
    let g' := Stats.play g us in
    Stats.timeInSeconds (Stats.stats g')
    = (Stats.timeInSeconds (Stats.stats g) + Stats.seconds us)%nat
    /\ Stats.points (Stats.stats g')
       = (Stats.points (Stats.stats g) + 25 * Stats.analyses us)%nat
    /\ (In "stay_awhile"%string (Stats.unlockedAchievements g')
        <-> (600 <= Stats.timeInSeconds (Stats.stats g'))%nat)
    /\ (In "high_score"%string (Stats.unlockedAchievements g')
        <-> (1000 <= Stats.points (Stats.stats g'))%nat).
Proof.
  induction us as [|u us IH]; intros g Ht Hp.
  - cbn. repeat split; try lia; tauto.
  - cbn zeta. rewrite play_cons.
    set (g1 := Stats.update g u).
    assert (H1 : (In "stay_awhile"%string (Stats.unlockedAchievements g1)
                  <-> (600 <= Stats.timeInSeconds (Stats.stats g1))%nat)
                 /\ (In "high_score"%string (Stats.unlockedAchievements g1)
                     <-> (1000 <= Stats.points (Stats.stats g1))%nat)
                 /\ Stats.timeInSeconds (Stats.stats g1)
                    = (Stats.timeInSeconds (Stats.stats g)
                       + Stats.seconds [u])%nat
                 /\ Stats.points (Stats.stats g1)
                    = (Stats.points (Stats.stats g)
                       + 25 * Stats.analyses [u])%nat).
    { unfold g1. cbn [Stats.update Stats.unlockedAchievements Stats.stats].
      rewrite engine_stay_awhile, engine_high_score.
      destruct u; cbn;
        (split; [split; [intros [H|H]; [apply Ht in H|]; lia | tauto]|]);
        (split; [split; [intros [H|H]; [apply Hp in H|]; lia | tauto]|]);
        split; lia. }
    destruct H1 as (Ht1 & Hp1 & Et & Ep).
    destruct (IH g1 Ht1 Hp1) as (Et' & Ep' & Ht' & Hp').
    rewrite Et', Ep' in *. rewrite Et, Ep in *.
    assert (Hs : Stats.seconds (u :: us)
                 = (Stats.seconds [u] + Stats.seconds us)%nat)
      by now destruct u.
    assert (Ha : Stats.analyses (u :: us)
                 = (Stats.analyses [u] + Stats.analyses us)%nat)
      by now destruct u.
    rewrite Hs, Ha. repeat split; try lia; try tauto.
Qed.

(** X19. The achievement effect comes to rest: it depends on the list
    it appends to, runs again after a run that has appended, and that
    second run appends nothing.  What it leaves is the list of one run. *)
Theorem achievement_effect_settles (fuel : nat) (s : Stats.GameStats)
    (u : list string) :
  (2 <= fuel)%nat ->
  Stats.achievementEffect fuel s u = Some (Stats.achievementEngine s u).
Proof.
  intros Hf. destruct fuel as [|[|fuel]]; try lia.
  cbn [Stats.achievementEffect].
  destruct (Nat.eqb_spec (List.length (Stats.achievementEngine s u))
              (List.length u)) as [He|He].
  - f_equal. rewrite achievementEngine_filter in *.
    rewrite length_app in He.
    destruct (map Stats.id _) as [|x l]; [now rewrite app_nil_r|].
    simpl in He. lia.
  - now rewrite achievementEngine_idempotent, Nat.eqb_refl.
Qed.

Lemma achievement_effect_settles_witness :
  Stats.achievementEffect 2 (Stats.mkStats 2000 2000 0 0 0) []
  = Some (Stats.achievementEngine (Stats.mkStats 2000 2000 0 0 0) []).
Proof.
  apply (achievement_effect_settles 2 (Stats.mkStats 2000 2000 0 0 0) []).
  lia.
Defined.

(** X20. The list of unlocked achievements only grows, at its end: what
    was unlocked stays unlocked (the first dive stays after zooming back
    out), in the same order. *)
Theorem achievements_are_kept (g : Stats.Game) (us : list Stats.Update) :
  exists later,
    Stats.unlockedAchievements (Stats.play g us)
    = Stats.unlockedAchievements g ++ later.
Proof.
  revert g. induction us as [|u us IH]; intros g.
  - exists []. now rewrite app_nil_r.
  - rewrite play_cons. destruct (IH (Stats.update g u)) as [later ->].
    cbn [Stats.update Stats.unlockedAchievements].
    rewrite achievementEngine_filter, <- app_assoc. eauto.
Qed.

(** X21. From the initial state no identifier is unlocked twice, and
    the Hunter achievement is out of reach: nothing ever writes
    [patternsFound], so at most five of the six achievements can be
    unlocked. *)
Theorem pattern_hunter_unreachable (us : list Stats.Update) :
  let g := Stats.play Stats.initialGame us in
  List.NoDup (Stats.unlockedAchievements g)
  /\ Stats.patternsFound (Stats.stats g) = 0%nat
  /\ ~ In "pattern_hunter"%string (Stats.unlockedAchievements g)
  /\ (List.length (Stats.unlockedAchievements g) <= 5)%nat.
Proof.
  cbn zeta.
  destruct (play_invariant us Stats.initialGame) as (Hd & Hi & Hp).
  - apply List.NoDup_nil.
  - intros x [].
  - reflexivity.
  - repeat split; [exact Hd | exact Hp | |].
    + intros Hin. apply Hi in Hin. simpl in Hin.
      intuition discriminate.
    + apply (NoDup_incl_length Hd Hi).
Qed.

(** X22. The timer and the analyses: the time shown is the number of
    seconds elapsed, each analysis is worth 25 points, Stay Awhile is
    unlocked exactly from the 600th second on and Scholar exactly from
    the 40th analysis on. *)
Theorem counters_and_achievements (us : list Stats.Update) :
  let g := Stats.play Stats.initialGame us in
  Stats.timeInSeconds (Stats.stats g) = Stats.seconds us
  /\ Stats.points (Stats.stats g) = (25 * Stats.analyses us)%nat
  /\ (In "stay_awhile"%string (Stats.unlockedAchievements g)
      <-> (600 <= Stats.seconds us)%nat)
  /\ (In "high_score"%string (Stats.unlockedAchievements g)
      <-> (40 <= Stats.analyses us)%nat).
Proof.
  cbn zeta.
  destruct (play_counters us Stats.initialGame) as (Et & Ep & Ht & Hp).
  - cbn. split; [tauto | lia].
  - cbn. split; [tauto | lia].
  - cbn in Et, Ep. rewrite Et in Ht. rewrite Ep in Hp.
    split; [exact Et|]. split; [exact Ep|]. split; [exact Ht|].
    split; intros H; [apply Hp in H | apply Hp]; lia.
Qed.

End Achievements.

(** ** The largest zoom reached *)

Section MaxZoom.

Import Ascii String.

Lemma zooms_cons (u : Stats.Update) (us : list Stats.Update) :
  Stats.zooms (u :: us) = Stats.zooms [u] ++ Stats.zooms us.
Proof. now destruct u. Qed.

(** [maxZoom] after some updates, none of which brings a NaN. *)
Lemma play_maxZoom (us : list Stats.Update) :
  forall g,
    is_nan (Stats.maxZoom (Stats.stats g)) = false ->
    Forall (fun z => is_nan z = false) (Stats.zooms us) ->
    let m := Stats.maxZoom (Stats.stats (Stats.play g us)) in
    In m (Stats.maxZoom (Stats.stats g) :: Stats.zooms us)
    /\ (forall z, In z (Stats.maxZoom (Stats.stats g) :: Stats.zooms us) ->
                  (z <=? m) = true).
Proof.
  induction us as [|u us IH]; intros g Hm Hz; cbn zeta.
  - split; [now left|]. intros z [<-|[]]. now apply leb_refl.
  - rewrite play_cons. rewrite zooms_cons in Hz |- *.
    apply Forall_app in Hz. destruct Hz as [Hu Hus].
    set (g1 := Stats.update g u).
    assert (H1 : (Stats.maxZoom (Stats.stats g)
                  <=? Stats.maxZoom (Stats.stats g1)) = true
                 /\ In (Stats.maxZoom (Stats.stats g1))
                      (Stats.maxZoom (Stats.stats g) :: Stats.zooms [u])
                 /\ (forall z, In z (Stats.zooms [u]) ->
                               (z <=? Stats.maxZoom (Stats.stats g1)) = true)).
    { unfold g1. destruct u as [| |z];
        cbn [Stats.update Stats.stats Stats.setStats Stats.maxZoom
             Stats.zooms In].
      - split; [now apply leb_refl|]. split; [now left | tauto].
      - split; [now apply leb_refl|]. split; [now left | tauto].
      - apply Forall_cons in Hu. destruct Hu as [Hzn _].
        destruct (Math_max_spec _ _ Hm Hzn) as (L1 & L2 & [E|E]).
        + split; [exact L1|]. split; [left; now rewrite E|].
          intros z' [<-|[]]. exact L2.
        + split; [exact L1|]. split; [right; left; now rewrite E|].
          intros z' [<-|[]]. exact L2. }
    destruct H1 as (L & M & U).
    destruct (IH g1 (leb_not_nan _ _ L) Hus) as [IHin IHle].
    cbn zeta in IHin, IHle.
    set (m := Stats.maxZoom (Stats.stats (Stats.play g1 us))) in *.
    assert (L1 : (Stats.maxZoom (Stats.stats g1) <=? m) = true)
      by (apply IHle; now left).
    split.
    + destruct IHin as [E|Hin].
      * rewrite <- E. destruct M as [M|M]; [now left | right].
        apply in_app_iff. now left.
      * right. apply in_app_iff. now right.
    + intros z [<-|Hin].
      * exact (leb_trans _ _ _ L L1).
      * apply in_app_iff in Hin. destruct Hin as [Hin|Hin].
        -- exact (leb_trans _ _ _ (U z Hin) L1).
        -- apply IHle. now right.
Qed.

Lemma play_depth (us : list Stats.Update) :
  forall g,
    is_nan (Stats.maxZoom (Stats.stats g)) = false ->
    Forall (fun z => is_nan z = false) (Stats.zooms us) ->
    (In "depth_seeker"%string (Stats.unlockedAchievements g)
     <-> (1000 <=? Stats.maxZoom (Stats.stats g)) = true) ->
    (In "abyssal_explorer"%string (Stats.unlockedAchievements g)
     <-> (1000000 <=? Stats.maxZoom (Stats.stats g)) = true) ->
    let g' := Stats.play g us in
    (In "depth_seeker"%string (Stats.unlockedAchievements g')
     <-> (1000 <=? Stats.maxZoom (Stats.stats g')) = true)
    /\ (In "abyssal_explorer"%string (Stats.unlockedAchievements g')
        <-> (1000000 <=? Stats.maxZoom (Stats.stats g')) = true).
Proof.
  induction us as [|u us IH]; intros g Hm Hz Hd Ha; cbn zeta;
    [now split|].
  rewrite play_cons. rewrite zooms_cons in Hz.
  apply Forall_app in Hz. destruct Hz as [Hu Hus].
  destruct (play_maxZoom [u] g Hm) as [_ Hle].
  { now rewrite zooms_cons, app_nil_r. }
  cbn zeta in Hle. change (Stats.play g [u]) with (Stats.update g u) in Hle.
  assert (L : (Stats.maxZoom (Stats.stats g)
               <=? Stats.maxZoom (Stats.stats (Stats.update g u))) = true)
    by (apply Hle; now left).
  apply IH; [exact (leb_not_nan _ _ L) | exact Hus | |];
    cbn [Stats.update Stats.unlockedAchievements];
    [rewrite (proj1 (engine_depth _ _)) | rewrite (proj1 (proj2 (engine_depth _ _)))];
    cbn [Stats.update Stats.stats] in L |- *.
  - split; [intros [H|H]; [|exact H] | tauto].
    apply Hd in H. exact (leb_trans _ _ _ H L).
  - split; [intros [H|H]; [|exact H] | tauto].
    apply Ha in H. exact (leb_trans _ _ _ H L).
Qed.

Lemma play_first_dive (us : list Stats.Update) :
  forall g,
    ((10 <? Stats.zoom (Stats.stats g)) = true ->
     In "first_dive"%string (Stats.unlockedAchievements g)) ->
    In "first_dive"%string (Stats.unlockedAchievements (Stats.play g us))
    <-> In "first_dive"%string (Stats.unlockedAchievements g)
        \/ Exists (fun z => (10 <? z) = true) (Stats.zooms us).
Proof.
  induction us as [|u us IH]; intros g Hg.
  - cbn. rewrite Exists_nil. tauto.
  - rewrite play_cons, IH.
    + cbn [Stats.update Stats.unlockedAchievements].
      rewrite (proj2 (proj2 (engine_depth _ _))).
      destruct u as [| |z]; cbn [Stats.setStats Stats.zoom Stats.zooms];
        rewrite ?Exists_cons; tauto.
    + cbn [Stats.update Stats.unlockedAchievements Stats.stats].
      rewrite (proj2 (proj2 (engine_depth _ _))). tauto.
Qed.

(** X23. As long as no NaN zoom is synchronised, [maxZoom] is the
    largest zoom the view has had: it is 1 (the initial zoom) or one of
    the synchronised values, and no such value exceeds it. *)
Theorem maxZoom_is_largest (us : list Stats.Update) :
  Forall (fun z => is_nan z = false) (Stats.zooms us) ->
  let m := Stats.maxZoom (Stats.stats (Stats.play Stats.initialGame us)) in
  In m (1 :: Stats.zooms us)
  /\ (forall z, In z (1 :: Stats.zooms us) -> (z <=? m) = true).
Proof.
  intros Hz. now apply (play_maxZoom us Stats.initialGame).
Qed.

Lemma maxZoom_is_largest_witness :
  In (Stats.maxZoom
        (Stats.stats
           (Stats.play Stats.initialGame
              [Stats.ZoomSync 2; Stats.Second; Stats.ZoomSync 4;
               Stats.ZoomSync 2])))
    (1 :: Stats.zooms
            [Stats.ZoomSync 2; Stats.Second; Stats.ZoomSync 4;
             Stats.ZoomSync 2]).
Proof.
  apply (maxZoom_is_largest
           [Stats.ZoomSync 2; Stats.Second; Stats.ZoomSync 4;
            Stats.ZoomSync 2]).
  repeat constructor.
Defined.

(** X24. The zoom achievements.  First Dive is unlocked exactly when
    some synchronised zoom has exceeded 10; and, as long as no NaN zoom
    is synchronised, Depth Seeker and Abyssal Explorer are unlocked
    exactly when [maxZoom] has reached 1000 and 1000000. *)
Theorem zoom_achievements (us : list Stats.Update) :
  Forall (fun z => is_nan z = false) (Stats.zooms us) ->
  let g := Stats.play Stats.initialGame us in
  (In "first_dive"%string (Stats.unlockedAchievements g)
   <-> Exists (fun z => (10 <? z) = true) (Stats.zooms us))
  /\ (In "depth_seeker"%string (Stats.unlockedAchievements g)
      <-> (1000 <=? Stats.maxZoom (Stats.stats g)) = true)
  /\ (In "abyssal_explorer"%string (Stats.unlockedAchievements g)
      <-> (1000000 <=? Stats.maxZoom (Stats.stats g)) = true).
Proof.
  intros Hz. cbn zeta. split.
  - rewrite (play_first_dive us Stats.initialGame) by discriminate.
    cbn. tauto.
  - apply (play_depth us Stats.initialGame); try assumption;
      try reflexivity; cbn; split; easy.
Qed.

Lemma zoom_achievements_witness :
  In "depth_seeker"%string
    (Stats.unlockedAchievements
       (Stats.play Stats.initialGame [Stats.ZoomSync 2000; Stats.ZoomSync 1]))
  <-> (1000 <=? Stats.maxZoom
                  (Stats.stats
                     (Stats.play Stats.initialGame
                        [Stats.ZoomSync 2000; Stats.ZoomSync 1]))) = true.
Proof.
  apply (zoom_achievements [Stats.ZoomSync 2000; Stats.ZoomSync 1]).
  repeat constructor.
Defined.

End MaxZoom.

(** ** The order of the zoom achievements *)

Lemma SFltb_leb_trans (a b c : spec_float) :
  SFltb a b = true -> SFleb b c = true -> SFltb a c = true.
Proof.
  unfold SFltb, SFleb.
  destruct a as [sa|sa| |sa ma ea], b as [sb|sb| |sb mb eb],
    c as [sc|sc| |sc mc ec];
    try destruct sa; try destruct sb; try destruct sc;
    simpl; try easy;
    change (Pos.compare_cont Eq) with Pos.compare;
    destruct (Z.compare_spec ea eb), (Z.compare_spec eb ec),
      (Z.compare_spec ea ec);
    try easy; try lia; subst;
    destruct (Pos.compare_spec ma mb), (Pos.compare_spec mb mc),
      (Pos.compare_spec ma mc);
    simpl; try easy; try lia.
Qed.

Lemma ltb_leb_trans (a b c : float) :
  (a <? b) = true -> (b <=? c) = true -> (a <? c) = true.
Proof.
  rewrite !FloatAxioms.ltb_spec, FloatAxioms.leb_spec.
  apply SFltb_leb_trans.
Qed.

Section Nested.

Import Ascii String.

(** X25. The zoom achievements come in order: as long as no NaN zoom is
    synchronised, Abyssal Explorer is never unlocked without Depth
    Seeker, nor Depth Seeker without First Dive. *)
Theorem zoom_achievements_nested (us : list Stats.Update) :
  Forall (fun z => is_nan z = false) (Stats.zooms us) ->
  let g := Stats.play Stats.initialGame us in
  (In "abyssal_explorer"%string (Stats.unlockedAchievements g) ->
   In "depth_seeker"%string (Stats.unlockedAchievements g))
  /\ (In "depth_seeker"%string (Stats.unlockedAchievements g) ->
      In "first_dive"%string (Stats.unlockedAchievements g)).
Proof.
  intros Hz. cbn zeta.
  destruct (play_depth us Stats.initialGame eq_refl Hz) as [Hd Ha];
    try (cbn; split; easy).
  cbn zeta in Hd, Ha.
  destruct (play_maxZoom us Stats.initialGame eq_refl Hz) as [Hin _].
  cbn zeta in Hin.
  change (Stats.maxZoom (Stats.stats Stats.initialGame)) with 1 in Hin.
  set (m := Stats.maxZoom (Stats.stats (Stats.play Stats.initialGame us)))
    in *.
  split.
  - intros H. apply Hd. apply Ha in H.
    exact (leb_trans 1000 1000000 m eq_refl H).
  - intros H. apply Hd in H.
    apply (play_first_dive us Stats.initialGame); [discriminate|].
    right. apply List.Exists_exists. exists m. split.
    + destruct Hin as [E|Hin]; [|exact Hin].
      rewrite <- E in H. discriminate H.
    + exact (ltb_leb_trans 10 1000 m eq_refl H).
Qed.

Lemma zoom_achievements_nested_witness :
  (In "abyssal_explorer"%string
     (Stats.unlockedAchievements
        (Stats.play Stats.initialGame [Stats.ZoomSync 2000; Stats.ZoomSync 1]))
   -> In "depth_seeker"%string
        (Stats.unlockedAchievements
           (Stats.play Stats.initialGame
              [Stats.ZoomSync 2000; Stats.ZoomSync 1])))
  /\ (In "depth_seeker"%string
        (Stats.unlockedAchievements
           (Stats.play Stats.initialGame
              [Stats.ZoomSync 2000; Stats.ZoomSync 1]))
      -> In "first_dive"%string
           (Stats.unlockedAchievements
              (Stats.play Stats.initialGame
                 [Stats.ZoomSync 2000; Stats.ZoomSync 1]))).
Proof.
  apply (zoom_achievements_nested [Stats.ZoomSync 2000; Stats.ZoomSync 1]).
  repeat constructor.
Defined.

End Nested.

(** ** The statistics along a session *)

Section Session.

Import Ascii String.

Variable canvas : Canvas.

Lemma sameValue_eq (a b : float) : JS.sameValue a b = true -> a = b.
Proof. unfold JS.sameValue. apply FloatAxioms.Leibniz.eqb_spec. Qed.

(** The zooms the statistics are told of are zooms of the view, hence
    numbers; the last of them is the zoom of the view. *)
Lemma zoomChanges_nonneg (evs : list Event) :
  forall app,
    (0 <=? zoom (view app)) = true ->
    Forall (fun z => (0 <=? z) = true) (zoomChanges canvas app evs).
Proof.
  induction evs as [|ev evs IH]; intros app Hz; [constructor|].
  cbn [zoomChanges].
  assert (Hz' : (0 <=? zoom (view (step canvas app ev))) = true)
    by (rewrite view_step; now apply handle_zoom_nonneg).
  apply Forall_app. split; [|now apply IH].
  destruct (JS.sameValue _ _); repeat constructor. exact Hz'.
Qed.

Lemma zoomChanges_last (evs : list Event) :
  forall app,
    In (zoom (view (run canvas app evs)))
       (zoom (view app) :: zoomChanges canvas app evs).
Proof.
  induction evs as [|ev evs IH]; intros app; [now left|].
  rewrite run_cons. cbn [zoomChanges].
  destruct (IH (step canvas app ev)) as [E|Hin].
  - rewrite <- E.
    destruct (JS.sameValue _ _) eqn:Hs.
    + left. now apply sameValue_eq.
    + right. now left.
  - right. apply in_app_iff. now right.
Qed.

(** X26. Along every session from the initial state, with the timer and
    the analyses interleaved in any way, no NaN zoom reaches the
    statistics, [maxZoom] is at least 1 and at least the current zoom of
    the view, and Depth Seeker and Abyssal Explorer are unlocked exactly
    when it has reached 1000 and 1000000. *)
Theorem session_maxZoom (evs : list Event) (us : list Stats.Update) :
  Stats.zooms us = zoomChanges canvas initialApp evs ->
  let g := Stats.play Stats.initialGame us in
  Forall (fun z => is_nan z = false) (Stats.zooms us)
  /\ (1 <=? Stats.maxZoom (Stats.stats g)) = true
  /\ (zoom (view (run canvas initialApp evs)) <=? Stats.maxZoom (Stats.stats g))
     = true
  /\ (In "depth_seeker"%string (Stats.unlockedAchievements g)
      <-> (1000 <=? Stats.maxZoom (Stats.stats g)) = true)
  /\ (In "abyssal_explorer"%string (Stats.unlockedAchievements g)
      <-> (1000000 <=? Stats.maxZoom (Stats.stats g)) = true).
Proof.
  intros Hus. cbn zeta.
  assert (Hnan : Forall (fun z => is_nan z = false) (Stats.zooms us)).
  { rewrite Hus.
    eapply Forall_impl; [apply (zoomChanges_nonneg evs initialApp eq_refl)|].
    intros z Hz. exact (leb_not_nan _ _ Hz). }
  destruct (play_maxZoom us Stats.initialGame eq_refl Hnan) as [_ Hle].
  cbn zeta in Hle.
  change (Stats.maxZoom (Stats.stats Stats.initialGame)) with 1 in Hle.
  split; [exact Hnan|].
  split; [apply Hle; now left|].
  split.
  - apply Hle. rewrite Hus. apply (zoomChanges_last evs initialApp).
  - apply (play_depth us Stats.initialGame); try assumption;
      try reflexivity; cbn; split; easy.
Qed.

End Session.

Lemma session_maxZoom_witness :
  (1 <=? Stats.maxZoom
           (Stats.stats
              (Stats.play Stats.initialGame
                 [Stats.ZoomSync 2; Stats.Second; Stats.ZoomSync 4])))
  = true.
Proof.
  apply (session_maxZoom canvas800x600 [ZoomInButton; ZoomInButton]
           [Stats.ZoomSync 2; Stats.Second; Stats.ZoomSync 4]).
  reflexivity.
Defined.

(** ** [formatTime] *)

Section FormatTime.

Import Ascii String.

Lemma string_length_append (a b : string) :
  String.length (a ++ b) = (String.length a + String.length b)%nat.
Proof. induction a as [|c a IH]; simpl; [reflexivity | now rewrite IH]. Qed.

(** Two concatenations with tails of the same length agree part by
    part. *)
Lemma append_tail_inj (a a' b b' : string) :
  String.length b = String.length b' ->
  (a ++ b)%string = (a' ++ b')%string -> a = a' /\ b = b'.
Proof.
  revert a'. induction a as [|c a IH]; intros [|c' a'] Hl H; simpl in H.
  - now split.
  - apply (f_equal String.length) in H. simpl in H.
    rewrite string_length_append in H. lia.
  - apply (f_equal String.length) in H. simpl in H.
    rewrite string_length_append in H. lia.
  - injection H as -> H. destruct (IH a' Hl H) as [-> ->]. now split.
Qed.

Lemma toString_inj (n m : nat) : Stats.toString n = Stats.toString m -> n = m.
Proof.
  unfold Stats.toString. intros H.
  apply (f_equal DecimalString.NilEmpty.uint_of_string) in H.
  rewrite !DecimalString.NilEmpty.usu in H. injection H as H.
  apply (f_equal Nat.of_uint) in H.
  now rewrite !DecimalNat.Unsigned.of_to in H.
Qed.

(** A count of seconds below 60 is padded to its two decimal digits. *)
Lemma pad_two_digits (k : nat) :
  (k < 60)%nat ->
  Stats.padStart 2 "0" (Stats.toString k)
  = String (Stats.digit (k / 10)) (String (Stats.digit (k mod 10)) "").
Proof.
  intros Hk.
  assert (Hall : forallb
                   (fun k =>
                      String.eqb
                        (Stats.padStart 2 "0" (Stats.toString k))
                        (String (Stats.digit (k / 10))
                           (String (Stats.digit (k mod 10)) "")))
                   (seq 0 60) = true) by (vm_compute; reflexivity).
  rewrite forallb_forall in Hall. apply String.eqb_eq, Hall, in_seq. lia.
Qed.

Lemma digit_inj (a b : nat) :
  (a < 10)%nat -> (b < 10)%nat -> Stats.digit a = Stats.digit b -> a = b.
Proof.
  unfold Stats.digit. intros Ha Hb H.
  apply (f_equal nat_of_ascii) in H.
  rewrite !nat_ascii_embedding in H by lia. lia.
Qed.

Lemma formatTime_digits (s : nat) :
  Stats.formatTime s
  = (Stats.toString (s / 60)
     ++ String ":" (String (Stats.digit (s mod 60 / 10))
                      (String (Stats.digit (s mod 60 mod 10)) "")))%string.
Proof.
  unfold Stats.formatTime.
  rewrite pad_two_digits by (apply Nat.mod_upper_bound; discriminate).
  reflexivity.
Qed.

(** X27. The time is shown as the whole minutes (not reduced to hours),
    a colon, and the seconds on exactly two digits. *)
Theorem formatTime_shape (s : nat) :
  Stats.formatTime s
  = (Stats.toString (s / 60) ++ ":"
     ++ String (Stats.digit (s mod 60 / 10))
          (String (Stats.digit (s mod 60 mod 10)) ""))%string
  /\ String.length (Stats.formatTime s)
     = (String.length (Stats.toString (s / 60)) + 3)%nat.
Proof.
  rewrite formatTime_digits. split; [reflexivity|].
  now rewrite string_length_append.
Qed.

(** X28. Two different times are never shown alike. *)
Theorem formatTime_injective (s s' : nat) :
  Stats.formatTime s = Stats.formatTime s' -> s = s'.
Proof.
  rewrite !formatTime_digits. intros H.
  apply append_tail_inj in H; [|reflexivity].
  destruct H as [Hm Hs]. apply toString_inj in Hm.
  pose proof (Nat.mod_upper_bound s 60 ltac:(discriminate)) as Bs.
  pose proof (Nat.mod_upper_bound s' 60 ltac:(discriminate)) as Bs'.
  pose proof (Nat.div_mod_eq (s mod 60) 10) as E.
  pose proof (Nat.div_mod_eq (s' mod 60) 10) as E'.
  pose proof (Nat.mod_upper_bound (s mod 60) 10 ltac:(discriminate)) as B0.
  pose proof (Nat.mod_upper_bound (s' mod 60) 10 ltac:(discriminate)) as B0'.
  pose proof (Nat.div_mod_eq s 60) as D.
  pose proof (Nat.div_mod_eq s' 60) as D'.
  set (q := (s mod 60 / 10)%nat) in *. set (r := ((s mod 60) mod 10)%nat) in *.
  set (q' := (s' mod 60 / 10)%nat) in *.
  set (r' := ((s' mod 60) mod 10)%nat) in *.
  clearbody q r q' r'.
  injection Hs as H1 H0.
  apply digit_inj in H1; [|lia|lia].
  apply digit_inj in H0; [|lia|lia].
  lia.
Qed.

Lemma formatTime_injective_witness : 605%nat = (10 * 60 + 5)%nat.
Proof.
  apply (formatTime_injective 605 (10 * 60 + 5)). reflexivity.
Defined.

End FormatTime.
